(** * Proyectus: exhaustive search and nearest neighbour for a small TSP

    A shallow embedding of [Proyectus.py].  The script computes the
    Euclidean distance matrix of a table of cities, solves the travelling
    salesperson problem by brute force ([busqueda_exhaustiva]) and by the
    nearest-neighbour heuristic ([vecino_mas_cercano]) and reports the
    deviation of the heuristic ([gap]).

    Modelling choices.
    - A Python [float] is an IEEE 754 binary64 number: Rocq's primitive
      [float], with the same correctly rounded [+ - * / sqrt] and the same
      comparisons ([nan] compares false with everything).
    - A Python exception is a value of [excepcion]; a computation that may
      raise returns a [resultado].
    - A list index is a [nat] (the script only builds non-negative indices);
      reading past the end raises [IndexError].
    - [None] is [None]: [mejor_ruta] and [mas_cercana] are options.
    - [set(range(1, n))] is the list of its elements in CPython's iteration
      order.  Small non-negative integers hash to themselves and the table
      is always larger than its biggest element, so the order is increasing,
      and removing an element keeps the order of the others.
    - The module-level [n] that both solvers read (they never look at their
      [nombres] argument) is an explicit parameter.
    - [x ** 2] is CPython's [float_pow]: [nan], the infinities, the zeros
      and [1.0] are answered by the interpreter, every other argument goes
      to the C library's [pow], which is not part of the script and is not
      correctly rounded in general.  The library function is a parameter
      [pow] of the distance functions; what is proved of them holds for
      every C library, under the assumption on [pow] that the statement
      names, if any. *)

From Stdlib Require Import List Arith ZArith Lia Bool Permutation Sorted.
From Stdlib Require Import Floats.
From Stdlib Require String.
Import ListNotations String.StringSyntax.

(** A decimal literal denotes the nearest binary64 number, as in Python. *)
#[local] Set Warnings "-inexact-float".

(** ** Exceptions *)

Inductive excepcion : Set :=
| IndexError
| KeyError
| OverflowError
| ValueError
| ZeroDivisionError.

Inductive resultado (A : Type) : Type :=
| Ok (a : A)
| Lanza (e : excepcion).

Arguments Ok {A} a.
Arguments Lanza {A} e.

Definition ligar {A B} (r : resultado A) (k : A -> resultado B) : resultado B :=
  match r with
  | Ok a => k a
  | Lanza e => Lanza e
  end.

Notation "x <- r ;; k" := (ligar r (fun x => k))
  (at level 61, r at next level, right associativity).
Notation "' p <- r ;; k" := (ligar r (fun x => match x with p => k end))
  (at level 61, p pattern, r at next level, right associativity).

(** [for x in l: st = f(st, x)], stopping at the first exception. *)
Fixpoint para_cada {A S} (f : S -> A -> resultado S) (l : list A) (st : S)
  : resultado S :=
  match l with
  | [] => Ok st
  | x :: t => st' <- f st x ;; para_cada f t st'
  end.

(** [[f(x) for x in l]], stopping at the first exception. *)
Fixpoint mapear {A B} (f : A -> resultado B) (l : list A) : resultado (list B) :=
  match l with
  | [] => Ok []
  | x :: t => y <- f x ;; ys <- mapear f t ;; Ok (y :: ys)
  end.

(** ** Lists and matrices *)

(** [l[i]] for a non-negative [i]. *)
Definition indice {A} (l : list A) (i : nat) : resultado A :=
  match nth_error l i with
  | Some x => Ok x
  | None => Lanza IndexError
  end.

Definition matriz := list (list float).

(** [matriz[i][j]] *)
Definition entrada (m : matriz) (i j : nat) : resultado float :=
  fila <- indice m i ;; indice fila j.

(** [range(a, b)] *)
Definition rango (a b : nat) : list nat := seq a (b - a).

(** ** [itertools.permutations]

    The tuples come out in lexicographic order of the positions of the
    input: each element in turn is put first, followed by every
    permutation of the others. *)

Fixpoint extraer {A} (l : list A) : list (A * list A) :=
  match l with
  | [] => []
  | x :: t => (x, t) :: map (fun yr => (fst yr, x :: snd yr)) (extraer t)
  end.

Fixpoint permutaciones_aux {A} (k : nat) (l : list A) : list (list A) :=
  match k with
  | 0 => [[]]
  | S k' =>
      flat_map (fun xr => map (cons (fst xr)) (permutaciones_aux k' (snd xr)))
               (extraer l)
  end.

Definition permutations {A} (l : list A) : list (list A) :=
  permutaciones_aux (length l) l.

(** ** 2. Distance functions *)

Local Open Scope float_scope.

Definition punto := (float * float)%type.

(** What the C library leaves in [errno] after a call that was entered
    with [errno = 0]: nothing, [ERANGE], or another code. *)
Inductive errno : Set :=
| Cero
| ERANGE
| Otro.

(** [_Py_ADJUST_ERANGE1]: an infinite result counts as out of range
    whatever the library reported, and a zero result clears [ERANGE]. *)
Definition ajustar_erange (x : float) (e : errno) : errno :=
  match e with
  | Cero => if is_infinity x then ERANGE else Cero
  | ERANGE => if x =? 0 then Cero else ERANGE
  | Otro => Otro
  end.

(** [math.sqrt]: a domain error below zero. *)
Definition raiz (x : float) : resultado float :=
  if x <? 0 then Lanza ValueError else Ok (sqrt x).

Section Libm.

(** The C library's [pow]: the value it returns and the [errno] it
    leaves. *)
Variable pow : float -> float -> float * errno.

(** The end of [float_pow], reached with a finite [iv > 0] and the
    exponent [2.0]: [1.0] is answered at once, anything else is handed to
    [pow], and a non-zero [errno] becomes [OverflowError] ([ERANGE]) or
    [ValueError]. *)
Definition llamar_pow (iv : float) : resultado float :=
  if iv =? 1 then Ok 1
  else
    let '(ix, e) := pow iv 2 in
    match ajustar_erange ix e with
    | Cero => Ok ix
    | ERANGE => Lanza OverflowError
    | Otro => Lanza ValueError
    end.

(** [x ** 2] on a float, after [float_pow] with the exponent [2.0]:
    [nan] gives itself, an infinity its absolute value, a zero [0.0]; a
    negative [x] is replaced by [-x] (the exponent is even, so the result
    is not negated). *)
Definition cuadrado (x : float) : resultado float :=
  if is_nan x then Ok x
  else if is_infinity x then Ok (abs x)
  else if x =? 0 then Ok 0
  else llamar_pow (if x <? 0 then - x else x).

Definition calcular_distancia (p1 p2 : punto) : resultado float :=
  dx2 <- cuadrado (fst p1 - fst p2) ;;
  dy2 <- cuadrado (snd p1 - snd p2) ;;
  raiz (dx2 + dy2).

(** The two nested loops that fill [matriz_distancias]. *)
Definition matriz_distancias (coords : list punto) : resultado matriz :=
  mapear (fun pi => mapear (fun pj => calcular_distancia pi pj) coords) coords.

End Libm.

(** A C library that rounds correctly, as far as the script calls it:
    [pow(x, 2.0)] is the product [x * x] rounded once, and [errno] is left
    alone (an overflow shows in the infinite result).  It serves where an
    example needs a library. *)
Definition pow_redondeada (x y : float) : float * errno := (x * x, Cero).

(** ** 3. Algorithms *)

(** The inner loop of lines 61-63: [acc += matriz[ruta[k]][ruta[k+1]]]
    for each [k] in [range(len(ruta) - 1)]. *)
Fixpoint sumar_tramos (m : matriz) (acc : float) (ruta : list nat)
  : resultado float :=
  match ruta with
  | a :: (b :: _) as resto =>
      d <- entrada m a b ;; sumar_tramos m (acc + d) resto
  | _ => Ok acc
  end.

(** The cost of a route as line 61 starts it: from the integer [0]. *)
Definition costo_ruta (m : matriz) (ruta : list nat) : resultado float :=
  sumar_tramos m 0 ruta.

Section Solvers.

(** The global [n = len(nombres)]. *)
Variable n : nat.

(** [(mejor_ruta, min_distancia)] *)
Definition estado_busqueda := (option (list nat) * float)%type.

(** One turn of the loop over the permutations (lines 58-68). *)
Definition probar (m : matriz) (st : estado_busqueda) (perm : list nat)
  : resultado estado_busqueda :=
  let ruta_actual := [0%nat] ++ perm ++ [0%nat] in
  distancia_actual <- costo_ruta m ruta_actual ;;
  if distancia_actual <? snd st
  then Ok (Some ruta_actual, distancia_actual)
  else Ok st.

Definition busqueda_exhaustiva (nombres : list String.string) (m : matriz)
  : resultado (option (list nat) * float) :=
  para_cada (probar m) (permutations (rango 1 n)) (None, infinity).

(** One turn of the scan of the unvisited cities (lines 93-97);
    the state is [(mas_cercana, min_dist_local)]. *)
Definition mirar (m : matriz) (actual : nat) (st : option nat * float)
           (vecina : nat) : resultado (option nat * float) :=
  d <- entrada m actual vecina ;;
  if d <? snd st then Ok (Some vecina, d) else Ok st.

Record estado_vecino : Type := Estado {
  no_visitadas : list nat;
  ruta : list nat;
  actual : nat;
  distancia_total : float
}.

(** The body of [while no_visitadas] (lines 89-103).  When no distance is
    below [float('inf')], [mas_cercana] is still [None] and
    [no_visitadas.remove(None)] raises [KeyError]. *)
Definition paso (m : matriz) (st : estado_vecino) : resultado estado_vecino :=
  '(mas_cercana, min_dist_local) <-
     para_cada (mirar m (actual st)) (no_visitadas st) (None, infinity) ;;
  match mas_cercana with
  | None => Lanza KeyError
  | Some c =>
      Ok {| no_visitadas := remove Nat.eq_dec c (no_visitadas st);
            ruta := ruta st ++ [c];
            actual := c;
            distancia_total := distancia_total st + min_dist_local |}
  end.

(** [while no_visitadas: ...] with a bound on the number of turns;
    [None] when the bound is reached before the loop ends. *)
Fixpoint mientras (vueltas : nat) (m : matriz) (st : estado_vecino)
  : option (resultado estado_vecino) :=
  match no_visitadas st with
  | [] => Some (Ok st)
  | _ :: _ =>
      match vueltas with
      | O => None
      | S vueltas' =>
          match paso m st with
          | Ok st' => mientras vueltas' m st'
          | Lanza e => Some (Lanza e)
          end
      end
  end.

(** Lines 106-109: back to the city of origin. *)
Definition cerrar (m : matriz) (st : estado_vecino)
  : resultado (list nat * float) :=
  d <- entrada m (actual st) 0 ;;
  Ok (ruta st ++ [0%nat], distancia_total st + d).

Definition estado_inicial : estado_vecino :=
  {| no_visitadas := rango 1 n; ruta := [0%nat]; actual := 0;
     distancia_total := 0 |}.

(** Every turn removes one of the fewer than [n] unvisited cities, so [n]
    turns are enough and the result is never [None] ([vecino_termina]). *)
Definition vecino_mas_cercano (nombres : list String.string) (m : matriz)
  : option (resultado (list nat * float)) :=
  match mientras n m estado_inicial with
  | None => None
  | Some r => Some (st <- r ;; cerrar m st)
  end.

End Solvers.

(** ** 4. Run and compare *)

(** Line 129. Dividing a float by zero raises [ZeroDivisionError]. *)
Definition gap (dist_nn dist_optima : float) : resultado float :=
  if dist_optima =? 0 then Lanza ZeroDivisionError
  else Ok (((dist_nn - dist_optima) / dist_optima) * 100).

Record informe : Type := Informe {
  ruta_optima : option (list nat);
  dist_optima : float;
  ruta_nn : list nat;
  dist_nn : float;
  desviacion : float
}.

(** The script from the table of cities to [gap] (lines 22-37 and 118-129),
    timing and printing left out. *)
Definition comparar (pow : float -> float -> float * errno)
  (ciudades : list (String.string * punto))
  : option (resultado informe) :=
  let nombres := map fst ciudades in
  let coords := map snd ciudades in
  let n := length nombres in
  match matriz_distancias pow coords with
  | Lanza e => Some (Lanza e)
  | Ok m =>
      match busqueda_exhaustiva n nombres m with
      | Lanza e => Some (Lanza e)
      | Ok (r_opt, d_opt) =>
          match vecino_mas_cercano n nombres m with
          | None => None
          | Some (Lanza e) => Some (Lanza e)
          | Some (Ok (r_nn, d_nn)) =>
              Some (g <- gap d_nn d_opt ;;
                    Ok {| ruta_optima := r_opt; dist_optima := d_opt;
                          ruta_nn := r_nn; dist_nn := d_nn;
                          desviacion := g |})
          end
      end
  end.

Local Open Scope string_scope.

(** The table of the script. *)
Definition ciudades : list (String.string * punto) :=
  [ ("Temuco", (-38.73738453399292, -72.59448229578543)%float);
    ("Valdivia", (-39.81605763783872, -73.23991062486559)%float);
    ("Puerto Montt", (-41.46940994292862, -72.93960764483167)%float);
    ("Villarrica", (-39.28287779349695, -72.22836532447117)%float);
    ("Pucón", (-39.278366182989664, -71.96905107526196)%float);
    ("Angol", (-37.802326934844054, -72.70005960112702)%float);
    ("Victoria", (-38.232155732537336, -72.35245377471217)%float);
    ("Traiguén", (-38.25002474259598, -72.66635271990164)%float) ].

(** A table with two cities at the same point. *)
Definition dos_coincidentes : list (String.string * punto) :=
  [ ("A", (0, 0)%float); ("B", (0, 0)%float) ].

Local Close Scope string_scope.

(** * Facts about binary64 arithmetic

    The primitive operations are specified by [FloatAxioms] through the
    functions of [SpecFloat]; the facts the solvers rest on are proved on
    that specification. *)

Local Open Scope Z_scope.

(** The specification floats that are neither [nan] nor below zero. *)
Definition sf_no_neg (f : spec_float) : Prop :=
  match f with
  | S754_zero _ | S754_infinity false | S754_finite false _ _ => True
  | _ => False
  end.

(** The sign of a specification float other than [nan]. *)
Definition sf_signo (s : bool) (f : spec_float) : Prop :=
  match f with
  | S754_zero s' | S754_infinity s' | S754_finite s' _ _ => s' = s
  | S754_nan => False
  end.

Lemma shr_1_no_neg mrs : 0 <= shr_m mrs -> 0 <= shr_m (shr_1 mrs).
Proof.
  destruct mrs as [m r s]; simpl.
  destruct m as [|p|p]; try destruct p; simpl; lia.
Qed.

Lemma iter_pos_inv {A} (P : A -> Prop) (f : A -> A) :
  (forall x, P x -> P (f x)) -> forall k x, P x -> P (iter_pos f k x).
Proof.
  intros Hf; induction k as [k IH|k IH|]; intros x Hx; simpl; auto.
Qed.

Lemma shr_no_neg mrs e k : 0 <= shr_m mrs -> 0 <= shr_m (fst (shr mrs e k)).
Proof.
  intros H; unfold shr; destruct k; simpl; auto.
  apply (iter_pos_inv (fun r => 0 <= shr_m r)); auto using shr_1_no_neg.
Qed.

Lemma shr_record_of_loc_m m l : shr_m (shr_record_of_loc m l) = m.
Proof. destruct l as [|[]]; reflexivity. Qed.

Lemma shr_fexp_no_neg p e m ex l :
  0 <= m -> 0 <= shr_m (fst (shr_fexp p e m ex l)).
Proof.
  intros H; unfold shr_fexp; apply shr_no_neg.
  now rewrite shr_record_of_loc_m.
Qed.

Lemma round_nearest_even_no_neg m l : 0 <= m -> 0 <= round_nearest_even m l.
Proof.
  intros H; unfold round_nearest_even.
  destruct l as [|[]]; try destruct (Z.even m); lia.
Qed.

Lemma binary_round_aux_signo p e sx mx ex lx :
  0 <= mx -> sf_signo sx (binary_round_aux p e sx mx ex lx).
Proof.
  intros H; unfold binary_round_aux.
  pose proof (shr_fexp_no_neg p e _ ex lx H) as H1.
  destruct (shr_fexp p e mx ex lx) as [mrs' e']; simpl in H1.
  pose proof (shr_fexp_no_neg p e _ e' loc_Exact
                (round_nearest_even_no_neg _ (loc_of_shr_record mrs') H1)) as H2.
  destruct (shr_fexp p e _ e' loc_Exact) as [mrs'' e'']; simpl in H2.
  destruct (shr_m mrs''); simpl; try reflexivity; try lia.
  destruct (e'' <=? e - p); reflexivity.
Qed.

Lemma binary_round_aux_opp p e sx mx ex lx :
  binary_round_aux p e (negb sx) mx ex lx
  = SFopp (binary_round_aux p e sx mx ex lx).
Proof.
  unfold binary_round_aux.
  destruct (shr_fexp p e mx ex lx) as [mrs' e'].
  destruct (shr_fexp p e _ e' loc_Exact) as [mrs'' e''].
  destruct (shr_m mrs''); try reflexivity.
  destruct (e'' <=? e - p); reflexivity.
Qed.

Lemma sf_signo_no_neg f : sf_signo false f -> sf_no_neg f.
Proof. destruct f as [s|s| |s m e]; simpl; intros H; subst; auto. Qed.

Lemma binary_round_signo p e s m ex : sf_signo s (binary_round p e s m ex).
Proof.
  unfold binary_round.
  destruct (shl_align m ex _) as [mz ez].
  apply binary_round_aux_signo; lia.
Qed.

Lemma binary_round_opp p e s m ex :
  binary_round p e (negb s) m ex = SFopp (binary_round p e s m ex).
Proof.
  unfold binary_round.
  destruct (shl_align m ex _) as [mz ez].
  apply binary_round_aux_opp.
Qed.

Lemma binary_normalize_opp p e z ex :
  z <> 0 ->
  binary_normalize p e (- z) ex false = SFopp (binary_normalize p e z ex false).
Proof.
  destruct z as [|q|q]; intros Hz; try congruence; simpl.
  - apply (binary_round_opp p e false).
  - apply (binary_round_opp p e true).
Qed.

Lemma binary_normalize_no_nan p e z ex :
  binary_normalize p e z ex false <> S754_nan.
Proof.
  destruct z as [|q|q]; simpl; try discriminate.
  - pose proof (binary_round_signo p e false q ex) as H.
    destruct (binary_round p e false q ex); simpl in H; congruence.
  - pose proof (binary_round_signo p e true q ex) as H.
    destruct (binary_round p e true q ex); simpl in H; congruence.
Qed.

(** Adding two numbers that are not below zero gives one that is not. *)
Lemma SFadd_no_neg p e a b :
  sf_no_neg a -> sf_no_neg b -> sf_no_neg (SFadd p e a b).
Proof.
  destruct a as [sa|sa| |sa ma ea], b as [sb|sb| |sb mb eb];
    try destruct sa; try destruct sb; simpl; try easy; intros _ _.
  apply sf_signo_no_neg, binary_round_signo.
Qed.

(** A square is never below zero. *)
Lemma SFmul_cuadrado_no_neg p e a :
  a <> S754_nan -> sf_no_neg (SFmul p e a a).
Proof.
  destruct a as [s|s| |s m ex]; simpl; intros H; try congruence;
    try (destruct s; exact I).
  apply sf_signo_no_neg.
  replace (xorb s s) with false by (now destruct s).
  apply binary_round_aux_signo; lia.
Qed.

Lemma SFmul_opp p e a : SFmul p e (SFopp a) (SFopp a) = SFmul p e a a.
Proof.
  destruct a as [s|s| |s m ex]; simpl; try reflexivity;
    now replace (xorb (negb s) (negb s)) with (xorb s s) by (now destruct s).
Qed.

(** [b - a] is the opposite of [a - b], except that both are [+0] when
    the difference vanishes. *)
Lemma SFsub_anti p e a b :
  SFsub p e b a = SFopp (SFsub p e a b)
  \/ (SFsub p e a b = S754_zero false /\ SFsub p e b a = S754_zero false).
Proof.
  destruct a as [sa|sa| |sa ma ea], b as [sb|sb| |sb mb eb];
    try (destruct sa, sb; simpl; auto; fail);
    try (destruct sa; simpl; auto; fail);
    try (destruct sb; simpl; auto; fail);
    try (simpl; auto; fail).
  simpl. rewrite (Z.min_comm eb ea).
  set (ez := Z.min ea eb).
  set (A := cond_Zopp sa (Z.pos (fst (shl_align ma ea ez)))).
  set (B := cond_Zopp sb (Z.pos (fst (shl_align mb eb ez)))).
  destruct (Z.eq_dec (A - B) 0) as [E|E].
  - right. replace (B - A) with 0 by lia. rewrite E. now split.
  - left. replace (B - A) with (- (A - B)) by lia.
    now apply binary_normalize_opp.
Qed.

(** [a - a] is [+0] for every finite [a]. *)
Lemma SFsub_diag p e a :
  match a with S754_zero _ | S754_finite _ _ _ => True | _ => False end ->
  SFsub p e a a = S754_zero false.
Proof.
  destruct a as [s|s| |s m ex]; simpl; intros H; try contradiction.
  - now destruct s.
  - now rewrite Z.sub_diag.
Qed.

Definition sf_finito (a : spec_float) : Prop :=
  match a with S754_zero _ | S754_finite _ _ _ => True | _ => False end.

Lemma SFsub_no_nan p e a b :
  sf_finito a -> sf_finito b -> SFsub p e a b <> S754_nan.
Proof.
  destruct a as [sa|sa| |sa ma ea], b as [sb|sb| |sb mb eb];
    simpl; try contradiction; intros _ _; try discriminate.
  - destruct sa, sb; discriminate.
  - apply binary_normalize_no_nan.
Qed.

Lemma SFsqrt_no_neg p e a : sf_no_neg a -> sf_no_neg (SFsqrt p e a).
Proof.
  destruct a as [s|s| |s m ex]; simpl; try destruct s; auto; intros _.
  destruct (SFsqrt_core_binary p e (Z.pos m) ex) as [[mz ez] lz] eqn:E.
  apply sf_signo_no_neg, binary_round_aux_signo.
  unfold SFsqrt_core_binary in E.
  set (m' := match ex - 2 * _ with Z.pos _ => _ | Z0 => _ | Z.neg _ => _ end) in E.
  assert (Hm : 0 <= m').
  { subst m'. destruct (ex - 2 * _); try lia. apply Z.shiftl_nonneg. lia. }
  pose proof (Z.sqrtrem_spec m' Hm) as Hs.
  destruct (Z.sqrtrem m') as [q r].
  injection E as <- _ _. nia.
Qed.

(** *** The order of the numbers that are not below zero

    [SFcompare] orders them by the key [(class, exponent, mantissa)],
    taken lexicographically. *)

Definition clave (f : spec_float) : Z * Z * Z :=
  match f with
  | S754_finite _ m e => (1, e, Z.pos m)
  | S754_infinity _ => (2, 0, 0)
  | _ => (0, 0, 0)
  end.

Definition clave_lt (a b : Z * Z * Z) : Prop :=
  fst (fst a) < fst (fst b)
  \/ (fst (fst a) = fst (fst b)
      /\ (snd (fst a) < snd (fst b)
          \/ (snd (fst a) = snd (fst b) /\ snd a < snd b))).

Definition clave_eq (a b : Z * Z * Z) : Prop :=
  fst (fst a) = fst (fst b) /\ snd (fst a) = snd (fst b) /\ snd a = snd b.

Lemma SFcompare_no_neg a b :
  sf_no_neg a -> sf_no_neg b ->
  match SFcompare a b with
  | Some Lt => clave_lt (clave a) (clave b)
  | Some Eq => clave_eq (clave a) (clave b)
  | Some Gt => clave_lt (clave b) (clave a)
  | None => False
  end.
Proof.
  unfold clave_lt, clave_eq.
  destruct a as [sa|sa| |sa ma ea], b as [sb|sb| |sb mb eb];
    try destruct sa; try destruct sb; simpl; try easy; try lia; intros _ _.
  destruct (Z.compare_spec ea eb); simpl; try lia.
  change (Pos.compare_cont Eq ma mb) with (Pos.compare ma mb).
  destruct (Pos.compare_spec ma mb); simpl; lia.
Qed.

Local Close Scope Z_scope.

(** ** Facts about Python floats *)

(** Neither [nan] nor below zero: the test [0 <= x]. *)
Definition no_negativo (x : float) : Prop := (0 <=? x) = true.

Lemma no_negativo_spec x : no_negativo x <-> sf_no_neg (Prim2SF x).
Proof.
  unfold no_negativo. rewrite leb_spec.
  change (Prim2SF 0) with (S754_zero false).
  destruct (Prim2SF x) as [s|s| |s m e]; try destruct s; simpl;
    split; intros H; auto; discriminate.
Qed.

Definition k (x : float) : Z * Z * Z := clave (Prim2SF x).

Lemma ltb_clave x y :
  no_negativo x -> no_negativo y ->
  ((x <? y) = true <-> clave_lt (k x) (k y)).
Proof.
  rewrite !no_negativo_spec, ltb_spec. unfold SFltb, k. intros Hx Hy.
  pose proof (SFcompare_no_neg _ _ Hx Hy) as H.
  unfold clave_lt, clave_eq in *.
  destruct (SFcompare (Prim2SF x) (Prim2SF y)) as [[]|];
    split; intros H'; try discriminate; try reflexivity; try lia.
Qed.

Lemma leb_clave x y :
  no_negativo x -> no_negativo y ->
  ((x <=? y) = true <-> clave_lt (k x) (k y) \/ clave_eq (k x) (k y)).
Proof.
  rewrite !no_negativo_spec, leb_spec. unfold SFleb, k. intros Hx Hy.
  pose proof (SFcompare_no_neg _ _ Hx Hy) as H.
  unfold clave_lt, clave_eq in *.
  destruct (SFcompare (Prim2SF x) (Prim2SF y)) as [[]|];
    split; intros H'; try discriminate; try reflexivity; try lia.
Qed.

Ltac por_clave :=
  repeat match goal with
         | H : (_ <? _) = true |- _ => rewrite ltb_clave in H by assumption
         | H : (_ <=? _) = true |- _ => rewrite leb_clave in H by assumption
         | H : (_ <? _) = false |- _ =>
             apply Bool.not_true_iff_false in H;
             rewrite ltb_clave in H by assumption
         | H : (_ <=? _) = false |- _ =>
             apply Bool.not_true_iff_false in H;
             rewrite leb_clave in H by assumption
         end;
  try (apply Bool.not_true_iff_false);
  try rewrite ltb_clave by assumption;
  try rewrite leb_clave by assumption;
  unfold clave_lt, clave_eq in *; lia.

Lemma leb_refl x : no_negativo x -> (x <=? x) = true.
Proof. intros; por_clave. Qed.

Lemma ltb_falso_leb x y :
  no_negativo x -> no_negativo y -> (x <? y) = false -> (y <=? x) = true.
Proof. intros; por_clave. Qed.

Lemma leb_trans x y z :
  no_negativo x -> no_negativo y -> no_negativo z ->
  (x <=? y) = true -> (y <=? z) = true -> (x <=? z) = true.
Proof. intros; por_clave. Qed.

Lemma ltb_leb x y :
  no_negativo x -> no_negativo y -> (x <? y) = true -> (x <=? y) = true.
Proof. intros; por_clave. Qed.

Lemma ltb_leb_trans x y z :
  no_negativo x -> no_negativo y -> no_negativo z ->
  (x <? y) = true -> (y <=? z) = true -> (x <? z) = true.
Proof. intros; por_clave. Qed.

Lemma leb_ltb_falso x y :
  no_negativo x -> no_negativo y -> (x <=? y) = true -> (y <? x) = false.
Proof. intros; por_clave. Qed.

Lemma ltb_leb_falso x y :
  no_negativo x -> no_negativo y -> (x <? y) = true -> (y <=? x) = false.
Proof. intros; por_clave. Qed.

Lemma no_negativo_infinity : no_negativo infinity.
Proof. reflexivity. Qed.

Lemma no_negativo_cero : no_negativo 0.
Proof. reflexivity. Qed.

Lemma leb_infinity x : no_negativo x -> (x <=? infinity) = true.
Proof.
  intros Hx. rewrite leb_spec. apply no_negativo_spec in Hx.
  change (Prim2SF infinity) with (S754_infinity false).
  destruct (Prim2SF x) as [s|s| |s m e]; try destruct s; simpl in *;
    try reflexivity; contradiction.
Qed.

Lemma ltb_no_negativo x y : no_negativo x -> (x <? y) = true -> no_negativo y.
Proof.
  rewrite !no_negativo_spec, ltb_spec. unfold SFltb.
  destruct (Prim2SF x) as [s|s| |s m e], (Prim2SF y) as [s'|s'| |s' m' e'];
    try destruct s; try destruct s'; simpl; try easy.
Qed.

Lemma add_no_negativo x y :
  no_negativo x -> no_negativo y -> no_negativo (x + y).
Proof.
  rewrite !no_negativo_spec, add_spec. apply SFadd_no_neg.
Qed.

(** * [itertools.permutations]: all of them, once each, in order *)

Section Permutaciones.

Context {A : Type}.

Lemma extraer_perm (l : list A) x r :
  In (x, r) (extraer l) -> Permutation l (x :: r).
Proof.
  revert x r; induction l as [|a l IH]; simpl; intros x r H; [easy|].
  destruct H as [H|H].
  - now inversion H.
  - apply in_map_iff in H as [[y r'] [E H]]. inversion E; subst; simpl.
    rewrite (IH _ _ H). apply perm_swap.
Qed.

Lemma extraer_in (l : list A) x : In x l -> exists r, In (x, r) (extraer l).
Proof.
  induction l as [|a l IH]; simpl; intros H; [easy|].
  destruct H as [->|H].
  - exists l. now left.
  - destruct (IH H) as [r Hr]. exists (a :: r). right.
    apply in_map_iff. now exists (x, r).
Qed.

Lemma extraer_length (l : list A) x r :
  In (x, r) (extraer l) -> length l = S (length r).
Proof.
  intros H. apply extraer_perm, Permutation_length in H. exact H.
Qed.

Lemma permutaciones_aux_perm k : forall (l q : list A),
  length l = k -> In q (permutaciones_aux k l) -> Permutation q l.
Proof.
  induction k as [|k IH]; intros l q Hl H; simpl in H.
  - destruct H as [<-|[]]. destruct l; [constructor|discriminate].
  - apply in_flat_map in H as [[x r] [Hx H]]. simpl in H.
    apply in_map_iff in H as [q' [<- H]].
    pose proof (extraer_length _ _ _ Hx) as Hr.
    rewrite (extraer_perm _ _ _ Hx). constructor.
    apply IH; [lia|exact H].
Qed.

Lemma permutaciones_aux_todas k : forall (l q : list A),
  length l = k -> Permutation q l -> In q (permutaciones_aux k l).
Proof.
  induction k as [|k IH]; intros l q Hl H; simpl.
  - destruct l; [|discriminate].
    apply Permutation_sym, Permutation_nil in H. now left.
  - destruct q as [|x q].
    { apply Permutation_length in H. simpl in H. lia. }
    assert (Hx : In x l) by (eapply Permutation_in; [exact H|now left]).
    destruct (extraer_in _ _ Hx) as [r Hr].
    apply in_flat_map. exists (x, r). split; [exact Hr|]. simpl.
    apply in_map. apply IH.
    + apply extraer_length in Hr. lia.
    + apply extraer_perm in Hr. rewrite Hr in H.
      now apply Permutation_cons_inv in H.
Qed.

(** [permutations l] lists exactly the rearrangements of [l]. *)
Lemma permutations_spec (l q : list A) :
  In q (permutations l) <-> Permutation q l.
Proof.
  unfold permutations; split.
  - now apply permutaciones_aux_perm.
  - now apply permutaciones_aux_todas.
Qed.

End Permutaciones.

(** The lexicographic order of index sequences. *)
Fixpoint lex_lt (p q : list nat) : Prop :=
  match p, q with
  | _, [] => False
  | [], _ :: _ => True
  | a :: p', b :: q' => a < b \/ (a = b /\ lex_lt p' q')
  end.

Lemma StronglySorted_flat_map {A B} (R : B -> B -> Prop) (F : A -> list B) xs :
  (forall x, In x xs -> StronglySorted R (F x)) ->
  StronglySorted (fun x y => forall a b, In a (F x) -> In b (F y) -> R a b) xs ->
  StronglySorted R (flat_map F xs).
Proof.
  induction xs as [|x xs IH]; simpl; intros Hin Hs; [constructor|].
  inversion Hs as [|? ? Hs' Hx]; subst.
  assert (IH' := IH (fun y Hy => Hin y (or_intror Hy)) Hs').
  assert (Hx0 := Hin x (or_introl eq_refl)).
  clear IH Hin Hs Hs'.
  induction (F x) as [|b bs IHb] in Hx0, Hx |- *; simpl; [exact IH'|].
  inversion Hx0; subst. constructor.
  - apply IHb; [|assumption].
    eapply Forall_impl; [|exact Hx]. intros y Hy a c Ha Hc.
    apply Hy; [now right|exact Hc].
  - apply Forall_app; split; [assumption|].
    apply Forall_forall. intros c Hc. apply in_flat_map in Hc as [y [Hy Hc]].
    rewrite Forall_forall in Hx. apply (Hx y Hy); [now left|exact Hc].
Qed.

Lemma StronglySorted_impl {A} (R R' : A -> A -> Prop) l :
  (forall x y, R x y -> R' x y) -> StronglySorted R l -> StronglySorted R' l.
Proof.
  intros HR; induction 1; constructor; auto.
  eapply Forall_impl; [|eassumption]. auto.
Qed.

Lemma StronglySorted_map_inv {A B} (R : B -> B -> Prop) (f : A -> B) l :
  StronglySorted R (map f l) -> StronglySorted (fun x y => R (f x) (f y)) l.
Proof.
  induction l as [|a l IH]; simpl; intros H; [constructor|].
  inversion H; subst. constructor; auto.
  now apply Forall_map.
Qed.

Lemma extraer_fst {A} (l : list A) : map fst (extraer l) = l.
Proof.
  induction l as [|a l IH]; simpl; [reflexivity|].
  rewrite map_map; simpl. f_equal. exact IH.
Qed.

Lemma extraer_ordenado (l : list nat) x r :
  StronglySorted lt l -> In (x, r) (extraer l) -> StronglySorted lt r.
Proof.
  revert x r; induction l as [|a l IH]; simpl; intros x r Hs H; [easy|].
  inversion Hs as [|? ? Hs' Ha]; subst.
  destruct H as [H|H].
  - now inversion H; subst.
  - apply in_map_iff in H as [[y r'] [E H]]. inversion E; subst; simpl.
    constructor; [eapply IH; eassumption|].
    rewrite Forall_forall in Ha |- *. intros z Hz. apply Ha.
    apply extraer_perm in H. eapply Permutation_in; [symmetry; exact H|].
    now right.
Qed.

Lemma lex_lt_map_cons x l :
  StronglySorted lex_lt l -> StronglySorted lex_lt (map (cons x) l).
Proof.
  induction 1 as [|a l Hs IH Ha]; simpl; constructor; auto.
  apply Forall_map. eapply Forall_impl; [|exact Ha].
  intros b Hb; simpl. now right.
Qed.

(** From an increasing input the permutations come out in increasing
    lexicographic order. *)
Lemma permutaciones_aux_ordenadas k : forall l : list nat,
  length l = k -> StronglySorted lt l ->
  StronglySorted lex_lt (permutaciones_aux k l).
Proof.
  induction k as [|k IH]; intros l Hl Hs; simpl.
  - repeat constructor.
  - apply StronglySorted_flat_map.
    + intros [x r] Hx; simpl. apply lex_lt_map_cons, IH.
      * apply extraer_length in Hx. lia.
      * eapply extraer_ordenado; eassumption.
    + rewrite <- (extraer_fst l) in Hs. apply StronglySorted_map_inv in Hs.
      eapply StronglySorted_impl; [|exact Hs].
      intros [x r] [y r'] Hxy a b Ha Hb; simpl in *.
      apply in_map_iff in Ha as [a' [<- _]].
      apply in_map_iff in Hb as [b' [<- _]].
      simpl. now left.
Qed.

Lemma permutations_ordenadas (l : list nat) :
  StronglySorted lt l -> StronglySorted lex_lt (permutations l).
Proof. now apply permutaciones_aux_ordenadas. Qed.

Lemma rango_ordenado a b : StronglySorted lt (rango a b).
Proof.
  unfold rango. generalize (b - a)%nat as len. intros len; revert a.
  induction len as [|len IH]; intros a; simpl; constructor; auto.
  apply Forall_forall. intros x Hx. apply in_seq in Hx. lia.
Qed.

(** * Distance matrices *)

Local Open Scope nat_scope.

(** [n] rows of [n] entries. *)
Definition cuadrada (n : nat) (m : matriz) : Prop :=
  length m = n /\ Forall (fun fila => length fila = n) m.

Definition entradas (P : float -> Prop) (m : matriz) : Prop :=
  Forall (Forall P) m.

(** Every entry passes [0 <= d]. *)
Definition no_negativa (m : matriz) : Prop := entradas no_negativo m.

(** Every entry passes [d < float('inf')]. *)
Definition finita (m : matriz) : Prop :=
  entradas (fun d => (d <? infinity)%float = true) m.

(** [matriz[i][j]] and [matriz[j][i]] are the same float (as
    [matriz_distancias] builds them), with the same outcome out of range. *)
Definition simetrica (m : matriz) : Prop :=
  forall i j, entrada m i j = entrada m j i.

Lemma indice_ok {A} (l : list A) i : i < length l -> exists x, indice l i = Ok x.
Proof.
  intros H. unfold indice. destruct (nth_error l i) eqn:E; eauto.
  apply nth_error_None in E. lia.
Qed.

Lemma indice_in {A} (l : list A) i x : indice l i = Ok x -> In x l.
Proof.
  unfold indice. destruct (nth_error l i) eqn:E; [|discriminate].
  intros [= <-]. eapply nth_error_In; eassumption.
Qed.

Lemma indice_fuera {A} (l : list A) i :
  length l <= i -> indice l i = Lanza IndexError.
Proof.
  intros H. unfold indice. now rewrite (proj2 (nth_error_None l i) H).
Qed.

Lemma entrada_ok n m i j :
  cuadrada n m -> i < n -> j < n -> exists d, entrada m i j = Ok d.
Proof.
  intros [Hl Hf] Hi Hj. unfold entrada.
  destruct (indice_ok m i) as [fila E]; [lia|]. rewrite E; simpl.
  apply indice_ok. rewrite Forall_forall in Hf.
  rewrite (Hf fila (indice_in _ _ _ E)). exact Hj.
Qed.

Lemma entrada_entradas P m i j d :
  entradas P m -> entrada m i j = Ok d -> P d.
Proof.
  unfold entradas, entrada. intros H E.
  destruct (indice m i) as [fila|] eqn:Ei; [|discriminate]. simpl in E.
  apply indice_in in Ei, E. rewrite Forall_forall in H.
  specialize (H _ Ei). rewrite Forall_forall in H. auto.
Qed.

(** The value of a computation that did not raise. *)
Definition valor (r : resultado float) : float :=
  match r with Ok x => x | Lanza _ => 0%float end.

Lemma sumar_tramos_ok n m : cuadrada n m ->
  forall r acc, Forall (fun i => i < n) r ->
  exists c, sumar_tramos m acc r = Ok c
            /\ (no_negativa m -> no_negativo acc -> no_negativo c).
Proof.
  intros Hm. induction r as [|a r IH]; intros acc Hr; simpl.
  - eauto.
  - destruct r as [|b r]; [eauto|].
    inversion Hr as [|? ? Ha Hr']; subst. inversion Hr' as [|? ? Hb _]; subst.
    destruct (entrada_ok _ _ _ _ Hm Ha Hb) as [d Hd]. rewrite Hd; simpl.
    destruct (IH (acc + d)%float Hr') as [c [Hc Hnn]].
    exists c. split; [exact Hc|]. intros Hneg Hacc. apply Hnn; [assumption|].
    apply add_no_negativo; [assumption|].
    exact (entrada_entradas _ _ _ _ _ Hneg Hd).
Qed.

(** * Keeping the smallest: the shape of both search loops *)

Section Escoger.

Context {A B : Type}.
Variable F : A -> resultado float.
Variable g : A -> B.

Definition escoger (st : option B * float) (x : A)
  : resultado (option B * float) :=
  c <- F x ;;
  if (c <? snd st)%float then Ok (Some (g x), c) else Ok st.

Let f (x : A) : float := valor (F x).

Lemma para_cada_escoger : forall xs o c,
  (forall x, In x xs -> F x = Ok (f x) /\ no_negativo (f x)) ->
  no_negativo c ->
  exists o' c',
    para_cada escoger xs (o, c) = Ok (o', c')
    /\ no_negativo c'
    /\ (c' <=? c)%float = true
    /\ (forall x, In x xs -> (c' <=? f x)%float = true)
    /\ ((o' = o /\ c' = c /\ forall x, In x xs -> (f x <? c)%float = false)
        \/ (exists xs1 x xs2,
              xs = xs1 ++ x :: xs2 /\ o' = Some (g x) /\ c' = f x
              /\ (f x <? c)%float = true
              /\ forall y, In y xs1 -> (f x <? f y)%float = true)).
Proof.
  induction xs as [|x xs IH]; intros o c HF Hc; simpl.
  - exists o, c. repeat split; auto using leb_refl; try easy.
    left. repeat split; easy.
  - destruct (HF x (or_introl eq_refl)) as [Ex Hx].
    assert (HF' : forall y, In y xs -> F y = Ok (f y) /\ no_negativo (f y))
      by (intros y Hy; apply HF; now right).
    unfold escoger at 1. rewrite Ex; simpl.
    destruct (f x <? c)%float eqn:Elt.
    + destruct (IH (Some (g x)) (f x) HF' Hx)
        as (o' & c' & E & Hc' & Hle & Hall & Hcase).
      exists o', c'. split; [exact E|]. split; [exact Hc'|].
      assert (Hlec : (c' <=? c)%float = true).
      { apply (leb_trans _ _ _ Hc' Hx Hc Hle). now apply ltb_leb. }
      split; [exact Hlec|].
      split; [intros y [<-|Hy]; auto|].
      right. destruct Hcase as [(-> & -> & Hno)|(xs1 & z & xs2 & -> & -> & -> & Hz & Hbefore)].
      * exists [], x, xs. repeat split; auto; easy.
      * exists (x :: xs1), z, xs2. repeat split; auto.
        -- apply (ltb_leb_trans _ _ _ Hc' Hx Hc Hz). now apply ltb_leb.
        -- intros y [<-|Hy]; auto.
    + destruct (IH o c HF' Hc) as (o' & c' & E & Hc' & Hle & Hall & Hcase).
      exists o', c'. split; [exact E|]. split; [exact Hc'|].
      split; [exact Hle|].
      split.
      { intros y [<-|Hy]; auto.
        apply (leb_trans _ _ _ Hc' Hc Hx Hle). now apply ltb_falso_leb. }
      destruct Hcase as [(-> & -> & Hno)|(xs1 & z & xs2 & -> & -> & -> & Hz & Hbefore)].
      * left. repeat split; auto. intros y [<-|Hy]; auto.
      * right. exists (x :: xs1), z, xs2. repeat split; auto.
        intros y [<-|Hy]; auto.
        assert (Hzn : no_negativo (f z)) by (apply HF'; apply in_elt).
        apply (ltb_leb_trans _ _ _ Hzn Hc Hx Hz). now apply ltb_falso_leb.
Qed.

End Escoger.

(** * Closed routes *)

(** The closed route [[0] + list(perm) + [0]] of line 58. *)
Definition circuito (p : list nat) : list nat := [0] ++ p ++ [0].

(** Its cost, when the sum does not raise. *)
Definition costo_circuito (m : matriz) (p : list nat) : float :=
  valor (costo_ruta m (circuito p)).

Lemma rango_in a b x : In x (rango a b) <-> a <= x < b.
Proof. unfold rango. rewrite in_seq. lia. Qed.

Lemma circuito_en_rango n p :
  1 <= n -> Permutation p (rango 1 n) ->
  Forall (fun i => i < n) (circuito p).
Proof.
  intros Hn Hp. unfold circuito. apply Forall_app; split; [|apply Forall_app; split].
  - constructor; [lia|constructor].
  - apply Forall_forall. intros x Hx.
    apply (Permutation_in _ Hp), rango_in in Hx. lia.
  - constructor; [lia|constructor].
Qed.

Lemma costo_circuito_ok n m p :
  1 <= n -> cuadrada n m -> Permutation p (rango 1 n) ->
  costo_ruta m (circuito p) = Ok (costo_circuito m p)
  /\ (no_negativa m -> no_negativo (costo_circuito m p)).
Proof.
  intros Hn Hm Hp. unfold costo_circuito, costo_ruta.
  destruct (sumar_tramos_ok n m Hm (circuito p) 0%float
              (circuito_en_rango n p Hn Hp)) as [c [E Hc]].
  rewrite E; simpl. split; [reflexivity|].
  intros Hneg. apply Hc; [assumption|apply no_negativo_cero].
Qed.

Lemma probar_escoger m :
  probar m = escoger (fun p => costo_ruta m (circuito p)) circuito.
Proof. reflexivity. Qed.

(** What the loop of [busqueda_exhaustiva] leaves in
    [(mejor_ruta, min_distancia)]. *)
Lemma busqueda_resumen n nombres m :
  1 <= n -> cuadrada n m -> no_negativa m ->
  exists o c,
    busqueda_exhaustiva n nombres m = Ok (o, c)
    /\ no_negativo c
    /\ (forall q, Permutation q (rango 1 n) ->
                  (c <=? costo_circuito m q)%float = true)
    /\ ((o = None /\ c = infinity
         /\ forall q, Permutation q (rango 1 n) ->
                      (costo_circuito m q <? infinity)%float = false)
        \/ (exists xs1 p xs2,
              permutations (rango 1 n) = xs1 ++ p :: xs2
              /\ o = Some (circuito p) /\ c = costo_circuito m p
              /\ (costo_circuito m p <? infinity)%float = true
              /\ forall y, In y xs1 ->
                   (costo_circuito m p <? costo_circuito m y)%float = true)).
Proof.
  intros Hn Hm Hneg. unfold busqueda_exhaustiva. rewrite probar_escoger.
  destruct (para_cada_escoger (fun p => costo_ruta m (circuito p)) circuito
              (permutations (rango 1 n)) None infinity)
    as (o & c & E & Hc & _ & Hall & Hcase).
  - intros q Hq. apply permutations_spec in Hq.
    destruct (costo_circuito_ok n m q Hn Hm Hq) as [E Hc]. split; auto.
  - apply no_negativo_infinity.
  - exists o, c. split; [exact E|]. split; [exact Hc|]. split.
    + intros q Hq. apply Hall. now apply permutations_spec.
    + destruct Hcase as [(-> & -> & Hno)|Hsi].
      * left. repeat split; auto. intros q Hq. apply Hno.
        now apply permutations_spec.
      * right. exact Hsi.
Qed.

(** * The nearest-neighbour loop *)

Lemma mirar_escoger m a : mirar m a = escoger (entrada m a) (fun v => v).
Proof. reflexivity. Qed.

Lemma remove_perm (c : nat) l :
  NoDup l -> In c l -> Permutation l (c :: remove Nat.eq_dec c l).
Proof.
  induction l as [|a l IH]; simpl; intros Hnd Hin; [easy|].
  inversion Hnd as [|? ? Ha Hnd']; subst.
  destruct (Nat.eq_dec c a) as [->|Hne].
  - rewrite notin_remove; [reflexivity|assumption].
  - destruct Hin as [->|Hin]; [congruence|].
    rewrite (IH Hnd' Hin) at 1. apply perm_swap.
Qed.

(** Adding one leg at the end of a route adds its length last. *)
Lemma sumar_tramos_snoc m c : forall r acc, r <> [] ->
  sumar_tramos m acc (r ++ [c])
  = (t <- sumar_tramos m acc r ;;
     d <- entrada m (last r 0) c ;; Ok (t + d)%float).
Proof.
  induction r as [|a r IH]; intros acc Hr; [congruence|].
  destruct r as [|b r].
  - simpl. destruct (entrada m a c); reflexivity.
  - change (sumar_tramos m acc ((a :: b :: r) ++ [c]))
      with (d <- entrada m a b ;; sumar_tramos m (acc + d)%float ((b :: r) ++ [c])).
    change (sumar_tramos m acc (a :: b :: r))
      with (d <- entrada m a b ;; sumar_tramos m (acc + d)%float (b :: r)).
    change (last (a :: b :: r) 0) with (last (b :: r) 0).
    destruct (entrada m a b) as [d|e]; simpl; [|reflexivity].
    apply IH. discriminate.
Qed.

(** What one turn of the loop does (lines 89-103). *)
Lemma paso_spec n m st :
  cuadrada n m -> no_negativa m -> finita m ->
  actual st < n -> Forall (fun i => i < n) (no_visitadas st) ->
  no_visitadas st <> [] ->
  exists c d antes despues,
    no_visitadas st = antes ++ c :: despues
    /\ entrada m (actual st) c = Ok d
    /\ (forall v, In v (no_visitadas st) ->
          exists dv, entrada m (actual st) v = Ok dv /\ (d <=? dv)%float = true)
    /\ (forall v, In v antes ->
          exists dv, entrada m (actual st) v = Ok dv /\ (d <? dv)%float = true)
    /\ paso m st
       = Ok {| no_visitadas := remove Nat.eq_dec c (no_visitadas st);
               ruta := ruta st ++ [c];
               actual := c;
               distancia_total := (distancia_total st + d)%float |}.
Proof.
  intros Hm Hneg Hfin Ha Hnv Hne. unfold paso. rewrite mirar_escoger.
  assert (HF : forall v, In v (no_visitadas st) ->
             entrada m (actual st) v = Ok (valor (entrada m (actual st) v))
             /\ no_negativo (valor (entrada m (actual st) v))
             /\ (valor (entrada m (actual st) v) <? infinity)%float = true).
  { intros v Hv. rewrite Forall_forall in Hnv.
    destruct (entrada_ok n m _ _ Hm Ha (Hnv v Hv)) as [d Hd].
    rewrite Hd; simpl. repeat split.
    - exact (entrada_entradas _ _ _ _ _ Hneg Hd).
    - exact (entrada_entradas _ _ _ _ _ Hfin Hd). }
  destruct (para_cada_escoger (entrada m (actual st)) (fun v => v)
              (no_visitadas st) None infinity)
    as (o & d & E & Hd & _ & Hall & Hcase).
  { intros v Hv. destruct (HF v Hv) as (? & ? & ?). auto. }
  { apply no_negativo_infinity. }
  rewrite E; simpl.
  destruct Hcase as [(-> & -> & Hno)|(antes & c & despues & Env & -> & -> & _ & Hantes)].
  - destruct (no_visitadas st) as [|v l]; [congruence|].
    destruct (HF v (or_introl eq_refl)) as (_ & _ & Hv).
    rewrite (Hno v (or_introl eq_refl)) in Hv. discriminate.
  - assert (Hc : In c (no_visitadas st)) by (rewrite Env; apply in_elt).
    exists c, (valor (entrada m (actual st) c)), antes, despues.
    split; [exact Env|]. split; [apply (HF c Hc)|]. split; [|split].
    + intros v Hv. exists (valor (entrada m (actual st) v)).
      split; [apply (HF v Hv)|apply (Hall v Hv)].
    + intros v Hv. exists (valor (entrada m (actual st) v)).
      split; [|apply (Hantes v Hv)].
      apply HF. rewrite Env. apply in_or_app. now left.
    + reflexivity.
Qed.

(** Whatever the matrix holds, the scan picks one of the cities it went
    through, so a turn that does not raise shortens [no_visitadas]. *)
Lemma para_cada_escoger_elige {A B} (F : A -> resultado float) (g : A -> B) :
  forall xs o c y c',
    para_cada (escoger F g) xs (o, c) = Ok (Some y, c') ->
    o = Some y \/ exists x, In x xs /\ y = g x.
Proof.
  induction xs as [|x xs IH]; simpl; intros o c y c' H.
  - injection H as -> _. now left.
  - unfold escoger at 1 in H. destruct (F x) as [d|]; [|discriminate].
    simpl in H. destruct (d <? c)%float.
    + apply IH in H as [H|[z [Hz ->]]]; right.
      * injection H as <-. exists x. auto.
      * exists z. auto.
    + apply IH in H as [H|[z [Hz ->]]]; [now left|right].
      exists z. auto.
Qed.

Lemma paso_acorta m st st' :
  paso m st = Ok st' ->
  length (no_visitadas st') < length (no_visitadas st).
Proof.
  unfold paso. rewrite mirar_escoger.
  destruct (para_cada _ _ _) as [[[c|] d]|] eqn:E; simpl; try discriminate.
  intros [= <-]. simpl. apply remove_length_lt.
  apply para_cada_escoger_elige in E as [E|[x [Hx ->]]];
    [discriminate|exact Hx].
Qed.

Lemma mientras_total m : forall vueltas st,
  length (no_visitadas st) <= vueltas -> mientras vueltas m st <> None.
Proof.
  induction vueltas as [|k IH]; intros st Hlen; simpl.
  - destruct (no_visitadas st); [discriminate|simpl in Hlen; lia].
  - destruct (no_visitadas st) eqn:E; [discriminate|].
    destruct (paso m st) as [st'|e] eqn:Ep; [|discriminate].
    apply IH. apply paso_acorta in Ep. rewrite E in Ep.
    simpl in Ep, Hlen. lia.
Qed.

(** [n] turns are enough on every matrix: [vecino_mas_cercano] always
    ends, with a route or with an exception. *)
Lemma vecino_termina n nombres m : vecino_mas_cercano n nombres m <> None.
Proof.
  unfold vecino_mas_cercano.
  pose proof (mientras_total m n (estado_inicial n)) as H.
  destruct (mientras n m (estado_inicial n)); [discriminate|].
  exfalso. apply H; [|reflexivity].
  simpl. unfold rango. rewrite length_seq. lia.
Qed.

(** The invariant of [while no_visitadas]: the route starts at 0, the
    visited and the unvisited cities together are [1 .. n-1], [actual] is
    the end of the route and [distancia_total] is its cost. *)
Definition invariante (n : nat) (m : matriz) (st : estado_vecino) : Prop :=
  exists vis,
    ruta st = 0 :: vis
    /\ Permutation (vis ++ no_visitadas st) (rango 1 n)
    /\ actual st = last (ruta st) 0
    /\ costo_ruta m (ruta st) = Ok (distancia_total st).

Lemma invariante_inicial n m : invariante n m (estado_inicial n).
Proof. exists []. repeat split; reflexivity. Qed.

Lemma last_in {A} (l : list A) d : l <> [] -> In (last l d) l.
Proof.
  induction l as [|a l IH]; intros H; [congruence|].
  destruct l as [|b l]; [now left|]. right. apply IH. discriminate.
Qed.

Lemma invariante_rango n m st :
  1 <= n -> invariante n m st ->
  actual st < n
  /\ Forall (fun i => i < n) (no_visitadas st)
  /\ NoDup (no_visitadas st).
Proof.
  intros Hn (vis & Hr & Hp & Ha & _).
  assert (Hin : forall x, In x (vis ++ no_visitadas st) -> 1 <= x < n).
  { intros x Hx. apply (Permutation_in _ Hp), rango_in in Hx. exact Hx. }
  repeat split.
  - rewrite Ha, Hr.
    destruct (last_in (0 :: vis) 0) as [<-|H]; [discriminate|lia|].
    apply Hin. apply in_or_app. now left.
  - apply Forall_forall. intros x Hx. apply Hin. apply in_or_app. now right.
  - apply (NoDup_app_remove_l vis).
    apply (Permutation_NoDup (Permutation_sym Hp)). apply seq_NoDup.
Qed.

Lemma paso_invariante n m st :
  1 <= n -> cuadrada n m -> no_negativa m -> finita m ->
  invariante n m st -> no_visitadas st <> [] ->
  exists st', paso m st = Ok st'
              /\ invariante n m st'
              /\ S (length (no_visitadas st')) = length (no_visitadas st).
Proof.
  intros Hn Hm Hneg Hfin Hinv Hne.
  destruct (invariante_rango n m st Hn Hinv) as (Ha & Hnv & Hnd).
  destruct (paso_spec n m st Hm Hneg Hfin Ha Hnv Hne)
    as (c & d & antes & despues & Env & Ed & _ & _ & E).
  assert (Hc : In c (no_visitadas st)) by (rewrite Env; apply in_elt).
  pose proof (remove_perm c _ Hnd Hc) as Hrem.
  destruct Hinv as (vis & Hr & Hp & Hact & Hcost).
  eexists. split; [exact E|]. split.
  - exists (vis ++ [c]). simpl. repeat split.
    + now rewrite Hr.
    + rewrite <- Hp, <- app_assoc. simpl.
      apply Permutation_app_head. now symmetry.
    + now rewrite last_last.
    + unfold costo_ruta in *. rewrite sumar_tramos_snoc.
      * rewrite Hcost; simpl. rewrite <- Hact, Ed. reflexivity.
      * rewrite Hr. discriminate.
  - simpl. apply Permutation_length in Hrem. simpl in Hrem. lia.
Qed.

(** The states in which the loop test is evaluated: the initial one, and
    the one a turn of the loop leaves. *)
Inductive alcanzable (n : nat) (m : matriz) : estado_vecino -> Prop :=
| alc_inicio : alcanzable n m (estado_inicial n)
| alc_paso st st' :
    alcanzable n m st -> no_visitadas st <> [] -> paso m st = Ok st' ->
    alcanzable n m st'.

Lemma alcanzable_invariante n m st :
  1 <= n -> cuadrada n m -> no_negativa m -> finita m ->
  alcanzable n m st -> invariante n m st.
Proof.
  intros Hn Hm Hneg Hfin. induction 1 as [|st st' _ IH Hne E].
  - apply invariante_inicial.
  - destruct (paso_invariante n m st Hn Hm Hneg Hfin IH Hne)
      as (st'' & E' & Hinv & _).
    rewrite E in E'. now injection E' as <-.
Qed.

(** The loop ends within as many turns as there are unvisited cities. *)
Lemma mientras_termina n m :
  1 <= n -> cuadrada n m -> no_negativa m -> finita m ->
  forall vueltas st,
    alcanzable n m st -> length (no_visitadas st) <= vueltas ->
    exists st', mientras vueltas m st = Some (Ok st')
                /\ alcanzable n m st' /\ no_visitadas st' = [].
Proof.
  intros Hn Hm Hneg Hfin. induction vueltas as [|k IH]; intros st Halc Hlen.
  - destruct (no_visitadas st) eqn:E; simpl in Hlen; [|lia].
    exists st. simpl. rewrite E. auto.
  - destruct (no_visitadas st) as [|v l] eqn:E.
    + exists st. simpl. rewrite E. auto.
    + assert (Hne : no_visitadas st <> []) by (rewrite E; discriminate).
      destruct (paso_invariante n m st Hn Hm Hneg Hfin
                  (alcanzable_invariante n m st Hn Hm Hneg Hfin Halc) Hne)
        as (st' & Ep & _ & Hl).
      simpl. rewrite E, Ep. apply IH.
      * exact (alc_paso n m st st' Halc Hne Ep).
      * rewrite E in Hl. simpl in *. lia.
Qed.

(** The run of [vecino_mas_cercano] on a square matrix of finite
    distances: the loop ends in a state with nothing left to visit, and
    the route is closed from there. *)
Lemma vecino_final n nombres m :
  1 <= n -> cuadrada n m -> no_negativa m -> finita m ->
  exists st d,
    alcanzable n m st /\ no_visitadas st = []
    /\ entrada m (actual st) 0 = Ok d
    /\ vecino_mas_cercano n nombres m
       = Some (Ok (ruta st ++ [0], (distancia_total st + d)%float))
    /\ costo_ruta m (ruta st ++ [0]) = Ok (distancia_total st + d)%float.
Proof.
  intros Hn Hm Hneg Hfin. unfold vecino_mas_cercano.
  destruct (mientras_termina n m Hn Hm Hneg Hfin n (estado_inicial n)
              (alc_inicio n m)) as (st & E & Halc & Hnv).
  { simpl. unfold rango. rewrite length_seq. lia. }
  rewrite E; simpl.
  pose proof (alcanzable_invariante n m st Hn Hm Hneg Hfin Halc) as Hinv.
  destruct (invariante_rango n m st Hn Hinv) as (Ha & _ & _).
  destruct Hinv as (vis & Hr & Hp & Hact & Hcost).
  destruct (entrada_ok n m (actual st) 0 Hm Ha Hn) as [d Ed].
  exists st, d. unfold cerrar. rewrite Ed; simpl.
  repeat split; auto.
  unfold costo_ruta in *.
  rewrite sumar_tramos_snoc by (rewrite Hr; discriminate).
  rewrite Hcost; simpl. rewrite <- Hact, Ed. reflexivity.
Qed.

(** What [vecino_mas_cercano] returns on such a matrix. *)
Lemma vecino_resumen n nombres m :
  1 <= n -> cuadrada n m -> no_negativa m -> finita m ->
  exists p c,
    vecino_mas_cercano n nombres m = Some (Ok (circuito p, c))
    /\ Permutation p (rango 1 n)
    /\ costo_ruta m (circuito p) = Ok c.
Proof.
  intros Hn Hm Hneg Hfin.
  destruct (vecino_final n nombres m Hn Hm Hneg Hfin)
    as (st & d & Halc & Hnv & _ & E & Hcost).
  destruct (alcanzable_invariante n m st Hn Hm Hneg Hfin Halc)
    as (vis & Hr & Hp & _ & _).
  rewrite Hnv, app_nil_r in Hp. rewrite Hr in E, Hcost.
  exists vis, (distancia_total st + d)%float. auto.
Qed.

(** * Example data *)

(** The unit square of the specification's scenario, in index order. *)
Definition plaza : list punto :=
  [(0, 0); (0, 1); (1, 1); (1, 0)]%float.

(** Its matrix.  The differences of the coordinates are [0.0], [1.0] and
    [-1.0], which [**] squares without the C library, so every library
    gives this matrix ([plaza_construida]). *)
Definition matriz_plaza : matriz :=
  Eval vm_compute in
    match matriz_distancias pow_redondeada plaza with
    | Ok m => m
    | Lanza _ => []
    end.

Ltac valida :=
  match goal with
  | |- cuadrada _ _ => split; [reflexivity|repeat constructor]
  | |- no_negativa _ => repeat constructor
  | |- finita _ => repeat constructor
  | |- _ <= _ => repeat constructor
  end.

(** ** The model at work *)

Example plaza_construida pow : matriz_distancias pow plaza = Ok matriz_plaza.
Proof. vm_compute. reflexivity. Qed.

(** [list(itertools.permutations(range(1, 4)))] *)
Example permutations_de_tres :
  permutations (rango 1 4)
  = [[1; 2; 3]; [1; 3; 2]; [2; 1; 3]; [2; 3; 1]; [3; 1; 2]; [3; 2; 1]].
Proof. reflexivity. Qed.

(** Two cities: both solvers return [[0, 1, 0]] and twice the distance. *)
Example dos_ciudades :
  busqueda_exhaustiva 2 [] [[0; 5]; [5; 0]]%float
  = Ok (Some [0; 1; 0], 10%float)
  /\ vecino_mas_cercano 2 [] [[0; 5]; [5; 0]]%float
     = Some (Ok ([0; 1; 0], 10%float)).
Proof. split; reflexivity. Qed.

(** The unit square: both solvers go round the perimeter, of length 4. *)
Example plaza_perimetro :
  busqueda_exhaustiva 4 [] matriz_plaza = Ok (Some [0; 1; 2; 3; 0], 4%float)
  /\ vecino_mas_cercano 4 [] matriz_plaza
     = Some (Ok ([0; 1; 2; 3; 0], 4%float)).
Proof. split; vm_compute; reflexivity. Qed.

(** Two far apart cities with finite coordinates, on a library whose
    [pow] rounds correctly: the sum of the squares overflows to [inf], no
    route is below [float('inf')], and [busqueda_exhaustiva] returns
    [(None, inf)] while the scan of [vecino_mas_cercano] finds no city and
    [remove(None)] raises. *)
Example sin_ruta_finita :
  matriz_distancias pow_redondeada [(0, 0); (1.3e154, 1.3e154)]%float
  = Ok [[0; infinity]; [infinity; 0]]%float
  /\ busqueda_exhaustiva 2 [] [[0; infinity]; [infinity; 0]]%float
     = Ok (None, infinity)
  /\ vecino_mas_cercano 2 [] [[0; infinity]; [infinity; 0]]%float
     = Some (Lanza KeyError).
Proof. repeat split; vm_compute; reflexivity. Qed.

(** * The cost of a route, leg by leg *)

(** The consecutive legs [(ruta[k], ruta[k+1])] of a route. *)
Fixpoint tramos (r : list nat) : list (nat * nat) :=
  match r with
  | a :: (b :: _) as resto => (a, b) :: tramos resto
  | _ => []
  end.

(** The lengths [matriz[ruta[k]][ruta[k+1]]] of the legs, in route order. *)
Definition largos (m : matriz) (r : list nat) : resultado (list float) :=
  mapear (fun ab => entrada m (fst ab) (snd ab)) (tramos r).

(** The sum that lines 61-63 build: from 0, one leg after the other. *)
Definition sumar (ws : list float) : float := fold_left add ws 0%float.

Lemma sumar_tramos_largos m : forall r acc,
  sumar_tramos m acc r = (ws <- largos m r ;; Ok (fold_left add ws acc)).
Proof.
  induction r as [|a r IH]; intros acc; [reflexivity|].
  destruct r as [|b r]; [reflexivity|].
  change (sumar_tramos m acc (a :: b :: r))
    with (d <- entrada m a b ;; sumar_tramos m (acc + d)%float (b :: r)).
  change (largos m (a :: b :: r))
    with (d <- entrada m a b ;; ys <- largos m (b :: r) ;; Ok (d :: ys)).
  destruct (entrada m a b) as [d|e]; cbn [ligar]; [|reflexivity].
  rewrite IH. now destruct (largos m (b :: r)).
Qed.

(** What the loop of lines 61-63 returns is the sum of the lengths of the
    legs. *)
Lemma largos_de_costo m r c :
  costo_ruta m r = Ok c -> exists ws, largos m r = Ok ws /\ sumar ws = c.
Proof.
  unfold costo_ruta. rewrite sumar_tramos_largos.
  destruct (largos m r) as [ws|e]; cbn [ligar]; [|discriminate].
  intros [= <-]. eauto.
Qed.

(** * The exhaustive search *)

Lemma StronglySorted_despues {A} (R : A -> A -> Prop) xs1 p xs2 :
  StronglySorted R (xs1 ++ p :: xs2) -> Forall (R p) xs2.
Proof.
  induction xs1 as [|a xs1 IH]; simpl; intros H; inversion H; subst; auto.
Qed.

(** The legs of every closed route are in the matrix, and their sum is
    what [costo_circuito] names. *)
Lemma largos_circuito n m q :
  1 <= n -> cuadrada n m -> Permutation q (rango 1 n) ->
  exists wq, largos m (circuito q) = Ok wq
             /\ sumar wq = costo_circuito m q.
Proof.
  intros Hn Hm Hq.
  destruct (costo_circuito_ok n m q Hn Hm Hq) as [E _].
  now apply largos_de_costo.
Qed.

(** The two ways the search can end.  Either some closed route sums to
    less than [float('inf')]: then the first route of the enumeration that
    no route undercuts is returned with the sum of its legs.  Or none
    does, and [(None, inf)] is returned. *)
Lemma busqueda_por_tramos n nombres m :
  1 <= n -> cuadrada n m -> no_negativa m ->
  (exists p ws,
     busqueda_exhaustiva n nombres m = Ok (Some (circuito p), sumar ws)
     /\ Permutation p (rango 1 n)
     /\ largos m (circuito p) = Ok ws
     /\ (sumar ws <? infinity)%float = true
     /\ forall q, Permutation q (rango 1 n) ->
          exists wq, largos m (circuito q) = Ok wq
                     /\ (sumar ws <=? sumar wq)%float = true
                     /\ ((sumar wq <=? sumar ws)%float = true ->
                         q = p \/ lex_lt p q))
  \/ (busqueda_exhaustiva n nombres m = Ok (None, infinity)
      /\ forall q, Permutation q (rango 1 n) ->
           exists wq, largos m (circuito q) = Ok wq
                      /\ (sumar wq <? infinity)%float = false).
Proof.
  intros Hn Hm Hneg.
  destruct (busqueda_resumen n nombres m Hn Hm Hneg)
    as (o & c & E & Hc & Hmin
        & [(-> & -> & Hno)|(xs1 & p & xs2 & Exs & -> & -> & Hfin & Hantes)]).
  - right. split; [exact E|]. intros q Hq.
    destruct (largos_circuito n m q Hn Hm Hq) as (wq & Ewq & Sq).
    exists wq. split; [exact Ewq|]. rewrite Sq. now apply Hno.
  - left.
    assert (Hp : Permutation p (rango 1 n)).
    { apply permutations_spec. rewrite Exs. apply in_elt. }
    destruct (largos_circuito n m p Hn Hm Hp) as (ws & Ews & Sp).
    exists p, ws. rewrite Sp.
    split; [exact E|]. split; [exact Hp|]. split; [exact Ews|].
    split; [exact Hfin|].
    intros q Hq.
    destruct (largos_circuito n m q Hn Hm Hq) as (wq & Ewq & Sq).
    exists wq. rewrite Sq. split; [exact Ewq|].
    split; [now apply Hmin|]. intros Hle.
    pose proof (proj2 (permutations_spec (rango 1 n) q) Hq) as Hin.
    rewrite Exs in Hin. apply in_app_or in Hin as [Hin|[<-|Hin]].
    + specialize (Hantes q Hin).
      assert (Hcq : no_negativo (costo_circuito m q))
        by now apply (costo_circuito_ok n m q Hn Hm Hq).
      rewrite (ltb_leb_falso _ _ Hc Hcq Hantes) in Hle. discriminate.
    + now left.
    + right.
      pose proof (permutations_ordenadas (rango 1 n) (rango_ordenado 1 n))
        as Hs.
      rewrite Exs in Hs. apply StronglySorted_despues in Hs.
      rewrite Forall_forall in Hs. now apply Hs.
Qed.

(** Symmetric distances of [1e308] between two cities. *)
Definition matriz_lejana_dos : matriz :=
  [[0; 1e308]; [1e308; 0]]%float.

(** C1, as the specification has it, fails: on the symmetric 2-by-2 matrix with
    the finite distance [1e308] the only closed route sums to
    [1e308 + 1e308 = inf], which is not below the initial [float('inf')],
    and [busqueda_exhaustiva] returns no route: [(None, inf)]. *)
Lemma busqueda_exhaustiva_sin_ruta :
  cuadrada 2 matriz_lejana_dos
  /\ simetrica matriz_lejana_dos
  /\ no_negativa matriz_lejana_dos
  /\ finita matriz_lejana_dos
  /\ largos matriz_lejana_dos [0; 1; 0] = Ok [1e308; 1e308]%float
  /\ sumar [1e308; 1e308]%float = infinity
  /\ busqueda_exhaustiva 2 [] matriz_lejana_dos = Ok (None, infinity).
Proof.
  split; [split; [reflexivity|repeat constructor]|].
  split.
  { intros i j.
    destruct i as [|[|[|i]]], j as [|[|[|j]]]; reflexivity. }
  split; [repeat constructor|]. split; [repeat constructor|].
  repeat split.
Qed.

(** C1, amended. For every [n >= 2] and every [n]-by-[n] matrix of
    distances that pass [0 <= d] (symmetric or not), one of two things
    happens.  Either [busqueda_exhaustiva] returns a closed route
    [[0, p_1, ..., p_(n-1), 0]] over a permutation of [1 .. n-1] with a
    cost below [float('inf')]; that cost is the float sum, from 0 and in
    route order, of the lengths of the consecutive legs of the returned
    route, and it is [<=] the same sum for every closed route over a
    permutation of [1 .. n-1].  Or no closed route sums to less than
    [float('inf')], and [(None, inf)] is returned. *)
Theorem busqueda_exhaustiva_minima n nombres m :
  2 <= n -> cuadrada n m -> no_negativa m ->
  (exists p ws,
     busqueda_exhaustiva n nombres m = Ok (Some ([0] ++ p ++ [0]), sumar ws)
     /\ Permutation p (rango 1 n)
     /\ largos m ([0] ++ p ++ [0]) = Ok ws
     /\ (sumar ws <? infinity)%float = true
     /\ forall q, Permutation q (rango 1 n) ->
          exists wq, largos m ([0] ++ q ++ [0]) = Ok wq
                     /\ (sumar ws <=? sumar wq)%float = true)
  \/ (busqueda_exhaustiva n nombres m = Ok (None, infinity)
      /\ forall q, Permutation q (rango 1 n) ->
           exists wq, largos m ([0] ++ q ++ [0]) = Ok wq
                      /\ (sumar wq <? infinity)%float = false).
Proof.
  intros Hn Hm Hneg. assert (Hn1 : 1 <= n) by lia.
  destruct (busqueda_por_tramos n nombres m Hn1 Hm Hneg)
    as [(p & ws & E & Hp & Ews & Hfin & Hmin)|[E Hno]].
  - left. exists p, ws. split; [exact E|]. split; [exact Hp|].
    split; [exact Ews|]. split; [exact Hfin|].
    intros q Hq. destruct (Hmin q Hq) as (wq & Ewq & Hle & _).
    exists wq. split; [exact Ewq|exact Hle].
  - right. split; [exact E|exact Hno].
Qed.

Lemma busqueda_exhaustiva_minima_plaza :
  (exists p ws,
     busqueda_exhaustiva 4 [] matriz_plaza
     = Ok (Some ([0] ++ p ++ [0]), sumar ws)
     /\ Permutation p (rango 1 4)
     /\ largos matriz_plaza ([0] ++ p ++ [0]) = Ok ws
     /\ (sumar ws <? infinity)%float = true
     /\ forall q, Permutation q (rango 1 4) ->
          exists wq, largos matriz_plaza ([0] ++ q ++ [0]) = Ok wq
                     /\ (sumar ws <=? sumar wq)%float = true)
  \/ (busqueda_exhaustiva 4 [] matriz_plaza = Ok (None, infinity)
      /\ forall q, Permutation q (rango 1 4) ->
           exists wq, largos matriz_plaza ([0] ++ q ++ [0]) = Ok wq
                      /\ (sumar wq <? infinity)%float = false).
Proof.
  apply (busqueda_exhaustiva_minima 4 [] matriz_plaza); valida.
Defined.

(** Symmetric distances of [9e307] between three cities. *)
Definition matriz_empate_tres : matriz :=
  [[0; 9e307; 9e307]; [9e307; 0; 9e307]; [9e307; 9e307; 0]]%float.

(** C9, as the specification has it, fails: on the symmetric 3-by-3 matrix with
    the distance [9e307] both closed routes sum to [inf], which is then
    the minimum cost and is reached by both, and [busqueda_exhaustiva]
    returns neither the lexicographically smallest nor any route:
    [(None, inf)]. *)
Lemma busqueda_exhaustiva_empate_sin_ruta :
  cuadrada 3 matriz_empate_tres
  /\ simetrica matriz_empate_tres
  /\ no_negativa matriz_empate_tres
  /\ permutations (rango 1 3) = [[1; 2]; [2; 1]]
  /\ costo_ruta matriz_empate_tres [0; 1; 2; 0] = Ok infinity
  /\ costo_ruta matriz_empate_tres [0; 2; 1; 0] = Ok infinity
  /\ busqueda_exhaustiva 3 [] matriz_empate_tres = Ok (None, infinity).
Proof.
  split; [split; [reflexivity|repeat constructor]|].
  split.
  { intros i j.
    destruct i as [|[|[|[|i]]]], j as [|[|[|[|j]]]]; reflexivity. }
  split; [repeat constructor|].
  repeat split.
Qed.

(** C9, amended. The tie-break of [busqueda_exhaustiva], for every
    [n >= 2] and every [n]-by-[n] matrix of distances that pass [0 <= d].
    When some closed route sums to less than [float('inf')], the returned
    route is a closed route over a permutation [p] of [1 .. n-1], its cost
    is the sum of its legs, no closed route has a smaller sum, and every
    other closed route whose sum is not above the returned cost (every
    other route that reaches the minimum) has an index sequence after the
    leading 0 that is lexicographically larger than [p].  When no closed
    route sums to less than [float('inf')], all tie at [inf] and
    [(None, inf)] is returned. *)
Theorem busqueda_exhaustiva_desempate n nombres m :
  2 <= n -> cuadrada n m -> no_negativa m ->
  (exists p ws,
     busqueda_exhaustiva n nombres m = Ok (Some ([0] ++ p ++ [0]), sumar ws)
     /\ Permutation p (rango 1 n)
     /\ largos m ([0] ++ p ++ [0]) = Ok ws
     /\ (sumar ws <? infinity)%float = true
     /\ forall q, Permutation q (rango 1 n) ->
          exists wq, largos m ([0] ++ q ++ [0]) = Ok wq
                     /\ (sumar ws <=? sumar wq)%float = true
                     /\ ((sumar wq <=? sumar ws)%float = true ->
                         q = p \/ lex_lt p q))
  \/ (busqueda_exhaustiva n nombres m = Ok (None, infinity)
      /\ forall q, Permutation q (rango 1 n) ->
           exists wq, largos m ([0] ++ q ++ [0]) = Ok wq
                      /\ (sumar wq <? infinity)%float = false).
Proof.
  intros Hn Hm Hneg. assert (Hn1 : 1 <= n) by lia.
  exact (busqueda_por_tramos n nombres m Hn1 Hm Hneg).
Qed.

Lemma busqueda_exhaustiva_desempate_plaza :
  (exists p ws,
     busqueda_exhaustiva 4 [] matriz_plaza
     = Ok (Some ([0] ++ p ++ [0]), sumar ws)
     /\ Permutation p (rango 1 4)
     /\ largos matriz_plaza ([0] ++ p ++ [0]) = Ok ws
     /\ (sumar ws <? infinity)%float = true
     /\ forall q, Permutation q (rango 1 4) ->
          exists wq, largos matriz_plaza ([0] ++ q ++ [0]) = Ok wq
                     /\ (sumar ws <=? sumar wq)%float = true
                     /\ ((sumar wq <=? sumar ws)%float = true ->
                         q = p \/ lex_lt p q))
  \/ (busqueda_exhaustiva 4 [] matriz_plaza = Ok (None, infinity)
      /\ forall q, Permutation q (rango 1 4) ->
           exists wq, largos matriz_plaza ([0] ++ q ++ [0]) = Ok wq
                      /\ (sumar wq <? infinity)%float = false).
Proof.
  apply (busqueda_exhaustiva_desempate 4 [] matriz_plaza); valida.
Defined.

(** C2. For every [n >= 2] and every [n]-by-[n] matrix of finite
    distances that pass [0 <= d], both solvers return, and the cost
    returned by [busqueda_exhaustiva] is [<=] the cost returned by
    [vecino_mas_cercano]. *)
Theorem exhaustiva_no_peor_que_vecino n nombres m :
  2 <= n -> cuadrada n m -> no_negativa m -> finita m ->
  exists r1 c1 r2 c2,
    busqueda_exhaustiva n nombres m = Ok (r1, c1)
    /\ vecino_mas_cercano n nombres m = Some (Ok (r2, c2))
    /\ (c1 <=? c2)%float = true.
Proof.
  intros Hn Hm Hneg Hfin. assert (Hn1 : 1 <= n) by lia.
  destruct (busqueda_resumen n nombres m Hn1 Hm Hneg)
    as (o & c & E & _ & Hmin & _).
  destruct (vecino_resumen n nombres m Hn1 Hm Hneg Hfin)
    as (p & c2 & E2 & Hp & Ec2).
  exists o, c, (circuito p), c2. repeat split; auto.
  specialize (Hmin p Hp). unfold costo_circuito in Hmin.
  now rewrite Ec2 in Hmin.
Qed.

Lemma exhaustiva_no_peor_que_vecino_plaza :
  exists r1 c1 r2 c2,
    busqueda_exhaustiva 4 [] matriz_plaza = Ok (r1, c1)
    /\ vecino_mas_cercano 4 [] matriz_plaza = Some (Ok (r2, c2))
    /\ (c1 <=? c2)%float = true.
Proof.
  apply (exhaustiva_no_peor_que_vecino 4 [] matriz_plaza); valida.
Defined.

(** * The Route invariant *)

(** [ruta[1:-1]] *)
Definition medio (r : list nat) : list nat := removelast (tl r).

(** Length [n + 1], index 0 at both ends, and between them the indices
    [1 .. n-1], each once. *)
Definition invariante_ruta (n : nat) (r : list nat) : Prop :=
  length r = n + 1
  /\ nth_error r 0 = Some 0
  /\ nth_error r n = Some 0
  /\ NoDup (medio r)
  /\ forall i, In i (medio r) <-> 1 <= i < n.

Lemma circuito_invariante n p :
  1 <= n -> Permutation p (rango 1 n) -> invariante_ruta n (circuito p).
Proof.
  intros Hn Hp.
  assert (Hlen : length p = n - 1).
  { rewrite (Permutation_length Hp). unfold rango. apply length_seq. }
  assert (Hmed : medio (circuito p) = p).
  { unfold medio, circuito. simpl. apply removelast_last. }
  unfold invariante_ruta. rewrite Hmed.
  split; [|split; [|split; [|split]]].
  - unfold circuito. rewrite !length_app. simpl. lia.
  - reflexivity.
  - unfold circuito. simpl. destruct n as [|k]; [lia|]. simpl.
    rewrite nth_error_app2 by lia.
    replace (k - length p) with 0 by lia. reflexivity.
  - apply (Permutation_NoDup (Permutation_sym Hp)). apply seq_NoDup.
  - intros i. rewrite <- rango_in. split; apply Permutation_in;
      [exact Hp|exact (Permutation_sym Hp)].
Qed.

(** Symmetric distances of [1e308] between three cities. *)
Definition matriz_lejana_tres : matriz :=
  [[0; 1e308; 1e308]; [1e308; 0; 1e308]; [1e308; 1e308; 0]]%float.

(** C3, as the specification has it, fails: the 3-by-3 matrix with the distance
    [1e308] is square, symmetric, with finite entries that pass [0 <= d],
    and [busqueda_exhaustiva] returns no route on it, [(None, inf)], every
    closed route summing to [inf]; [vecino_mas_cercano] returns
    [[0, 1, 2, 0]] with the cost [inf]. *)
Lemma busqueda_exhaustiva_ruta_ausente :
  cuadrada 3 matriz_lejana_tres
  /\ simetrica matriz_lejana_tres
  /\ no_negativa matriz_lejana_tres
  /\ finita matriz_lejana_tres
  /\ busqueda_exhaustiva 3 [] matriz_lejana_tres = Ok (None, infinity)
  /\ vecino_mas_cercano 3 [] matriz_lejana_tres
     = Some (Ok ([0; 1; 2; 0], infinity)).
Proof.
  split; [split; [reflexivity|repeat constructor]|].
  split.
  { intros i j.
    destruct i as [|[|[|[|i]]]], j as [|[|[|[|j]]]]; reflexivity. }
  split; [repeat constructor|]. split; [repeat constructor|].
  split; reflexivity.
Qed.

(** C3, amended. For every [n >= 2] and every [n]-by-[n] matrix of finite
    distances that pass [0 <= d], both solvers return.  The route of
    [vecino_mas_cercano] satisfies the Route invariant: length [n + 1],
    index 0 first and last, and in between exactly the indices
    [1 .. n-1] without repeats.  [busqueda_exhaustiva] returns a route
    exactly when some closed route sums to less than [float('inf')], and
    that route satisfies the invariant and has such a sum; when every
    closed route sums to [inf] it returns [None] with the cost [inf]. *)
Theorem rutas_cumplen_invariante n nombres m :
  2 <= n -> cuadrada n m -> no_negativa m -> finita m ->
  exists o c1 r2 c2,
    busqueda_exhaustiva n nombres m = Ok (o, c1)
    /\ vecino_mas_cercano n nombres m = Some (Ok (r2, c2))
    /\ invariante_ruta n r2
    /\ ((exists r1 ws,
           o = Some r1 /\ invariante_ruta n r1
           /\ largos m r1 = Ok ws /\ c1 = sumar ws
           /\ (sumar ws <? infinity)%float = true)
        \/ (o = None /\ c1 = infinity
            /\ forall q, Permutation q (rango 1 n) ->
                 exists wq, largos m ([0] ++ q ++ [0]) = Ok wq
                            /\ (sumar wq <? infinity)%float = false)).
Proof.
  intros Hn Hm Hneg Hfin. assert (Hn1 : 1 <= n) by lia.
  destruct (vecino_resumen n nombres m Hn1 Hm Hneg Hfin)
    as (p2 & c2 & E2 & Hp2 & _).
  destruct (busqueda_por_tramos n nombres m Hn1 Hm Hneg)
    as [(p & ws & E & Hp & Ews & Hlt & _)|[E Hno]].
  - exists (Some (circuito p)), (sumar ws), (circuito p2), c2.
    split; [exact E|]. split; [exact E2|].
    split; [now apply circuito_invariante|].
    left. exists (circuito p), ws.
    split; [reflexivity|]. split; [now apply circuito_invariante|].
    split; [exact Ews|]. split; [reflexivity|exact Hlt].
  - exists None, infinity, (circuito p2), c2.
    split; [exact E|]. split; [exact E2|].
    split; [now apply circuito_invariante|].
    right. split; [reflexivity|]. split; [reflexivity|exact Hno].
Qed.

Lemma rutas_cumplen_invariante_plaza :
  exists o c1 r2 c2,
    busqueda_exhaustiva 4 [] matriz_plaza = Ok (o, c1)
    /\ vecino_mas_cercano 4 [] matriz_plaza = Some (Ok (r2, c2))
    /\ invariante_ruta 4 r2
    /\ ((exists r1 ws,
           o = Some r1 /\ invariante_ruta 4 r1
           /\ largos matriz_plaza r1 = Ok ws /\ c1 = sumar ws
           /\ (sumar ws <? infinity)%float = true)
        \/ (o = None /\ c1 = infinity
            /\ forall q, Permutation q (rango 1 4) ->
                 exists wq, largos matriz_plaza ([0] ++ q ++ [0]) = Ok wq
                            /\ (sumar wq <? infinity)%float = false)).
Proof.
  apply (rutas_cumplen_invariante 4 [] matriz_plaza); valida.
Defined.

(** * The nearest-neighbour heuristic *)

(** C4. On an [n]-by-[n] matrix ([n >= 1]) of finite distances that pass
    [0 <= d], [vecino_mas_cercano] starts at index 0 with the unvisited
    cities [1 .. n-1]; in every turn of its loop it picks an unvisited
    city [c] whose distance [d] from the current one is [<=] the distance
    of every unvisited city, appends it to the route, removes it from the
    unvisited ones, adds [d] to the accumulated cost and moves to [c];
    when nothing is left it appends 0 and adds the distance back to 0,
    and the returned cost is the sum of the consecutive legs of the
    returned route. *)
Theorem vecino_mas_cercano_voraz n nombres m :
  1 <= n -> cuadrada n m -> no_negativa m -> finita m ->
  estado_inicial n
  = {| no_visitadas := rango 1 n; ruta := [0]; actual := 0;
       distancia_total := 0%float |}
  /\ (forall st,
        alcanzable n m st -> no_visitadas st <> [] ->
        exists c d,
          In c (no_visitadas st)
          /\ entrada m (actual st) c = Ok d
          /\ (forall v, In v (no_visitadas st) ->
                exists dv, entrada m (actual st) v = Ok dv
                           /\ (d <=? dv)%float = true)
          /\ paso m st
             = Ok {| no_visitadas := remove Nat.eq_dec c (no_visitadas st);
                     ruta := ruta st ++ [c];
                     actual := c;
                     distancia_total := (distancia_total st + d)%float |})
  /\ exists st d,
       alcanzable n m st /\ no_visitadas st = []
       /\ entrada m (actual st) 0 = Ok d
       /\ vecino_mas_cercano n nombres m
          = Some (Ok (ruta st ++ [0], (distancia_total st + d)%float))
       /\ costo_ruta m (ruta st ++ [0]) = Ok (distancia_total st + d)%float.
Proof.
  intros Hn Hm Hneg Hfin. split; [reflexivity|]. split.
  - intros st Halc Hne.
    pose proof (alcanzable_invariante n m st Hn Hm Hneg Hfin Halc) as Hinv.
    destruct (invariante_rango n m st Hn Hinv) as (Ha & Hnv & _).
    destruct (paso_spec n m st Hm Hneg Hfin Ha Hnv Hne)
      as (c & d & antes & despues & Env & Ed & Hmin & _ & E).
    exists c, d. repeat split; auto. rewrite Env. apply in_elt.
  - apply vecino_final; assumption.
Qed.

Lemma vecino_mas_cercano_voraz_plaza :
  estado_inicial 4
  = {| no_visitadas := rango 1 4; ruta := [0]; actual := 0;
       distancia_total := 0%float |}
  /\ (forall st,
        alcanzable 4 matriz_plaza st -> no_visitadas st <> [] ->
        exists c d,
          In c (no_visitadas st)
          /\ entrada matriz_plaza (actual st) c = Ok d
          /\ (forall v, In v (no_visitadas st) ->
                exists dv, entrada matriz_plaza (actual st) v = Ok dv
                           /\ (d <=? dv)%float = true)
          /\ paso matriz_plaza st
             = Ok {| no_visitadas := remove Nat.eq_dec c (no_visitadas st);
                     ruta := ruta st ++ [c];
                     actual := c;
                     distancia_total := (distancia_total st + d)%float |})
  /\ exists st d,
       alcanzable 4 matriz_plaza st /\ no_visitadas st = []
       /\ entrada matriz_plaza (actual st) 0 = Ok d
       /\ vecino_mas_cercano 4 [] matriz_plaza
          = Some (Ok (ruta st ++ [0], (distancia_total st + d)%float))
       /\ costo_ruta matriz_plaza (ruta st ++ [0])
          = Ok (distancia_total st + d)%float.
Proof.
  apply (vecino_mas_cercano_voraz 4 [] matriz_plaza); valida.
Defined.

(** * Fewer than two cities *)

Lemma suma_cero x : (x =? 0)%float = true -> (0 + x)%float = 0%float.
Proof.
  intros H. apply Prim2SF_inj. rewrite add_spec.
  rewrite eqb_spec in H. revert H.
  change (Prim2SF 0) with (S754_zero false).
  destruct (Prim2SF x) as [s|s| |s mx ex]; try destruct s; simpl;
    try discriminate; reflexivity.
Qed.

(** C10. With [n = 1] and [matriz[0][0] == 0], neither solver raises:
    each returns the route [[0, 0]] with cost 0. *)
Theorem una_ciudad nombres m x :
  entrada m 0 0 = Ok x -> (x =? 0)%float = true ->
  busqueda_exhaustiva 1 nombres m = Ok (Some [0; 0], 0%float)
  /\ vecino_mas_cercano 1 nombres m = Some (Ok ([0; 0], 0%float)).
Proof.
  intros E Hx. split.
  - unfold busqueda_exhaustiva. simpl.
    unfold probar, costo_ruta. simpl. rewrite E. simpl.
    rewrite (suma_cero x Hx). reflexivity.
  - unfold vecino_mas_cercano. simpl. unfold cerrar. simpl.
    rewrite E. simpl. rewrite (suma_cero x Hx). reflexivity.
Qed.

Lemma una_ciudad_ejemplo :
  busqueda_exhaustiva 1 [] [[0%float]] = Ok (Some [0; 0], 0%float)
  /\ vecino_mas_cercano 1 [] [[0%float]] = Some (Ok ([0; 0], 0%float)).
Proof.
  apply (una_ciudad [] [[0%float]] 0%float); reflexivity.
Defined.

(** C6, as the specification has it, fails: with one city and the 1-by-1
    matrix [[0.0]] both solvers return a route; nothing is raised. *)
Lemma una_ciudad_no_lanza :
  busqueda_exhaustiva 1 [] [[0%float]] = Ok (Some [0; 0], 0%float)
  /\ vecino_mas_cercano 1 [] [[0%float]] = Some (Ok ([0; 0], 0%float)).
Proof. split; reflexivity. Qed.

(** C6, amended. With fewer than two cities and the matrix of that size:
    for [n = 0] both solvers raise [IndexError] (they read
    [matriz[0][0]] of the empty matrix); for [n = 1] neither raises:
    [vecino_mas_cercano] returns [([0, 0], 0 + matriz[0][0])], and
    [busqueda_exhaustiva] returns the same pair when that cost is below
    [float('inf')] and [(None, inf)] otherwise. *)
Theorem menos_de_dos_ciudades n nombres m :
  n < 2 -> cuadrada n m ->
  (n = 0
   /\ busqueda_exhaustiva n nombres m = Lanza IndexError
   /\ vecino_mas_cercano n nombres m = Some (Lanza IndexError))
  \/ (n = 1
      /\ exists x,
           entrada m 0 0 = Ok x
           /\ busqueda_exhaustiva n nombres m
              = Ok (if (0 + x <? infinity)%float
                    then (Some [0; 0], (0 + x)%float)
                    else (None, infinity))
           /\ vecino_mas_cercano n nombres m
              = Some (Ok ([0; 0], (0 + x)%float))).
Proof.
  intros Hn Hm. destruct n as [|[|n]]; [left|right|lia].
  - destruct Hm as [Hl _]. destruct m; [|discriminate].
    repeat split; reflexivity.
  - split; [reflexivity|].
    destruct (entrada_ok 1 m 0 0 Hm) as [x E]; [lia|lia|].
    exists x. split; [exact E|]. split.
    + unfold busqueda_exhaustiva. simpl.
      unfold probar, costo_ruta. simpl. rewrite E. simpl.
      now destruct (0 + x <? infinity)%float.
    + unfold vecino_mas_cercano. simpl. unfold cerrar. simpl.
      rewrite E. reflexivity.
Qed.

Lemma menos_de_dos_ciudades_ejemplo :
  (0 = 0
   /\ busqueda_exhaustiva 0 [] [] = Lanza IndexError
   /\ vecino_mas_cercano 0 [] [] = Some (Lanza IndexError))
  \/ (0 = 1
      /\ exists x,
           entrada [] 0 0 = Ok x
           /\ busqueda_exhaustiva 0 [] []
              = Ok (if (0 + x <? infinity)%float
                    then (Some [0; 0], (0 + x)%float)
                    else (None, infinity))
           /\ vecino_mas_cercano 0 [] []
              = Some (Ok ([0; 0], (0 + x)%float))).
Proof.
  apply (menos_de_dos_ciudades 0 [] []); [lia|valida].
Defined.

(** * The deviation *)

(** C7. Two cities at the same point: both routes have length 0 and
    line 129 divides by zero, so the script stops with
    [ZeroDivisionError] instead of reporting the deviation as "N/A",
    whatever the C library (the squares are those of [0.0]). *)
Theorem comparar_coincidentes pow :
  comparar pow dos_coincidentes = Some (Lanza ZeroDivisionError).
Proof. vm_compute. reflexivity. Qed.

(** When the optimum is not zero, the deviation is the quotient of
    line 129. *)
Lemma gap_no_cero d_nn d_opt :
  (d_opt =? 0)%float = false ->
  gap d_nn d_opt = Ok (((d_nn - d_opt) / d_opt) * 100)%float.
Proof. intros H. unfold gap. now rewrite H. Qed.

Lemma gap_cero d_nn d_opt :
  (d_opt =? 0)%float = true -> gap d_nn d_opt = Lanza ZeroDivisionError.
Proof. intros H. unfold gap. now rewrite H. Qed.

(** * The matrix of Euclidean distances *)

Local Open Scope float_scope.

Definition sf_finitob (a : spec_float) : bool :=
  match a with S754_zero _ | S754_finite _ _ _ => true | _ => false end.

Lemma SFeqb_refl a : a <> S754_nan -> SFeqb a a = true.
Proof.
  destruct a as [s|s| |s mx ex]; intros H; try congruence;
    unfold SFeqb; simpl; try (destruct s; reflexivity).
  rewrite Z.compare_refl.
  change (Pos.compare_cont Eq mx mx) with (Pos.compare mx mx).
  rewrite Pos.compare_refl. now destruct s.
Qed.

Lemma is_finite_spec x : is_finite x = sf_finitob (Prim2SF x).
Proof.
  unfold is_finite, is_nan, is_infinity.
  rewrite !eqb_spec, abs_spec.
  change (Prim2SF infinity) with (S754_infinity false).
  destruct (Prim2SF x) as [s|s| |s mx ex] eqn:E; try reflexivity;
    try (destruct s; reflexivity).
  rewrite SFeqb_refl by discriminate. reflexivity.
Qed.

Lemma is_finite_sf x : is_finite x = true -> sf_finito (Prim2SF x).
Proof.
  rewrite is_finite_spec. now destruct (Prim2SF x).
Qed.

Lemma eqb_refl x : no_negativo x -> (x =? x) = true.
Proof.
  intros H. rewrite eqb_spec. apply SFeqb_refl.
  apply no_negativo_spec in H. now destruct (Prim2SF x).
Qed.

(** [x - x] is [0.0] for a finite [x]. *)
Lemma sub_diag x : is_finite x = true -> x - x = 0.
Proof.
  intros H. apply Prim2SF_inj. rewrite sub_spec.
  unfold SF64sub. rewrite SFsub_diag; [reflexivity|].
  apply is_finite_sf in H. exact H.
Qed.

(** [b - a] is [-(a - b)], or both are [0.0]. *)
Lemma sub_anti a b : b - a = - (a - b) \/ (a - b = 0 /\ b - a = 0).
Proof.
  destruct (SFsub_anti prec emax (Prim2SF a) (Prim2SF b)) as [H|[H1 H2]].
  - left. apply Prim2SF_inj. now rewrite opp_spec, !sub_spec.
  - right. split; apply Prim2SF_inj; rewrite sub_spec; assumption.
Qed.

(** How the tests of [float_pow] read on the specification floats. *)
Lemma is_nan_sf x :
  is_nan x = match Prim2SF x with S754_nan => true | _ => false end.
Proof.
  unfold is_nan. rewrite eqb_spec.
  destruct (Prim2SF x) as [s|s| |s mx ex] eqn:E; try reflexivity;
    rewrite SFeqb_refl by discriminate; reflexivity.
Qed.

Lemma is_infinity_sf x :
  is_infinity x
  = match Prim2SF x with S754_infinity _ => true | _ => false end.
Proof.
  unfold is_infinity. rewrite eqb_spec, abs_spec.
  change (Prim2SF infinity) with (S754_infinity false).
  destruct (Prim2SF x) as [s|s| |s mx ex]; reflexivity.
Qed.

Lemma eqb_cero_sf x :
  (x =? 0) = match Prim2SF x with S754_zero _ => true | _ => false end.
Proof.
  rewrite eqb_spec. change (Prim2SF 0) with (S754_zero false).
  destruct (Prim2SF x) as [s|s| |s mx ex]; try destruct s; reflexivity.
Qed.

Lemma abs_opp x : abs (- x) = abs x.
Proof.
  apply Prim2SF_inj. rewrite !abs_spec, opp_spec.
  now destruct (Prim2SF x).
Qed.

(** [x ** 2] by the class of [x]: a finite non-zero [x] reaches the
    library as [|x|]. *)
Lemma cuadrado_clases pow x :
  cuadrado pow x
  = match Prim2SF x with
    | S754_nan => Ok x
    | S754_infinity _ => Ok (abs x)
    | S754_zero _ => Ok 0
    | S754_finite _ _ _ => llamar_pow pow (abs x)
    end.
Proof.
  unfold cuadrado. rewrite is_nan_sf, is_infinity_sf, eqb_cero_sf.
  destruct (Prim2SF x) as [s|s| |s mx ex] eqn:E; try reflexivity.
  f_equal. rewrite ltb_spec, E. change (Prim2SF 0) with (S754_zero false).
  apply Prim2SF_inj. destruct s; simpl.
  - now rewrite opp_spec, abs_spec, E.
  - now rewrite abs_spec, E.
Qed.

Lemma cuadrado_opp pow x : cuadrado pow (- x) = cuadrado pow x.
Proof.
  rewrite !cuadrado_clases, opp_spec, abs_opp.
  destruct (Prim2SF x) as [s|s| |s mx ex] eqn:E; try reflexivity.
  simpl. f_equal. apply Prim2SF_inj. now rewrite opp_spec, E.
Qed.

Lemma cuadrado_sub_sim pow a b : cuadrado pow (a - b) = cuadrado pow (b - a).
Proof.
  destruct (sub_anti a b) as [H|[H1 H2]].
  - rewrite H. symmetry. apply cuadrado_opp.
  - now rewrite H1, H2.
Qed.

(** The distance does not depend on the order of the two points: both
    orders hand the same arguments to the library. *)
Lemma calcular_distancia_sim pow p q :
  calcular_distancia pow p q = calcular_distancia pow q p.
Proof.
  unfold calcular_distancia.
  now rewrite (cuadrado_sub_sim pow (fst p) (fst q)),
              (cuadrado_sub_sim pow (snd p) (snd q)).
Qed.

Definition punto_finito (p : punto) : Prop :=
  is_finite (fst p) = true /\ is_finite (snd p) = true.

(** A point with finite coordinates is at distance [0.0] from itself. *)
Lemma calcular_distancia_diag pow p :
  punto_finito p -> calcular_distancia pow p p = Ok 0.
Proof.
  intros [Hx Hy]. unfold calcular_distancia.
  rewrite (sub_diag _ Hx), (sub_diag _ Hy). reflexivity.
Qed.

(** The one assumption on the C library that the sign of the distances
    needs: [pow] of a finite base above zero and the exponent [2.0] is a
    number, not [nan] (C11 F.10.4.4 has [pow] return [nan] only for a
    [nan] argument or a negative base with a non-integer exponent). *)
Definition pow_sin_nan (pow : float -> float -> float * errno) : Prop :=
  forall x, (0 <? x) = true -> (x <? infinity) = true ->
            is_nan (fst (pow x 2)) = false.

(** A specification float that can be added to another of its kind
    without giving [nan]: a number other than [-inf]. *)
Definition sf_sumable (f : spec_float) : Prop :=
  match f with
  | S754_nan | S754_infinity true => False
  | _ => True
  end.

Lemma SFadd_sumable p e a b :
  sf_sumable a -> sf_sumable b -> SFadd p e a b <> S754_nan.
Proof.
  destruct a as [sa|[|]| |sa ma ea], b as [sb|[|]| |sb mb eb];
    simpl; try contradiction; intros _ _; try discriminate.
  - destruct sa, sb; discriminate.
  - apply binary_normalize_no_nan.
Qed.

Lemma llamar_pow_sumable pow iv r :
  pow_sin_nan pow -> (0 <? iv) = true -> (iv <? infinity) = true ->
  llamar_pow pow iv = Ok r -> sf_sumable (Prim2SF r).
Proof.
  intros Hpow H0 Hinf. unfold llamar_pow. destruct (iv =? 1).
  - intros [= <-]. exact I.
  - specialize (Hpow iv H0 Hinf). destruct (pow iv 2) as [ix e].
    simpl in Hpow. rewrite is_nan_sf in Hpow.
    unfold ajustar_erange. rewrite is_infinity_sf, eqb_cero_sf.
    destruct e, (Prim2SF ix) as [s|s| |s mx ex] eqn:E;
      try discriminate; intros [= <-]; rewrite E; exact I.
Qed.

Lemma cuadrado_sumable pow x r :
  pow_sin_nan pow -> Prim2SF x <> S754_nan ->
  cuadrado pow x = Ok r -> sf_sumable (Prim2SF r).
Proof.
  intros Hpow Hx. rewrite cuadrado_clases.
  destruct (Prim2SF x) as [s|s| |s mx ex] eqn:E.
  - intros [= <-]. exact I.
  - intros [= <-]. rewrite abs_spec, E. exact I.
  - congruence.
  - apply (llamar_pow_sumable pow (abs x)); [exact Hpow| |].
    + rewrite ltb_spec, abs_spec, E. reflexivity.
    + rewrite ltb_spec, abs_spec, E. reflexivity.
Qed.

Lemma raiz_no_neg x r :
  Prim2SF x <> S754_nan -> raiz x = Ok r -> no_negativo r.
Proof.
  unfold raiz. rewrite ltb_spec. change (Prim2SF 0) with (S754_zero false).
  intros Hx. destruct (SFltb (Prim2SF x) (S754_zero false)) eqn:E;
    [discriminate|].
  intros [= <-]. apply no_negativo_spec. rewrite sqrt_spec.
  apply SFsqrt_no_neg.
  destruct (Prim2SF x) as [s|[|]| |[|] mx ex]; simpl in *;
    try exact I; try discriminate; congruence.
Qed.

Lemma sub_no_nan a b :
  is_finite a = true -> is_finite b = true -> Prim2SF (a - b) <> S754_nan.
Proof.
  intros Ha Hb. rewrite sub_spec.
  apply SFsub_no_nan; now apply is_finite_sf.
Qed.

(** Between points with finite coordinates the distance passes [0 <= d]:
    a sum that came out negative would have stopped [math.sqrt]. *)
Lemma calcular_distancia_no_neg pow p q d :
  pow_sin_nan pow -> punto_finito p -> punto_finito q ->
  calcular_distancia pow p q = Ok d -> no_negativo d.
Proof.
  intros Hpow [Hpx Hpy] [Hqx Hqy]. unfold calcular_distancia. intros H.
  destruct (cuadrado pow (fst p - fst q)) as [dx2|] eqn:Ex; [|discriminate].
  destruct (cuadrado pow (snd p - snd q)) as [dy2|] eqn:Ey; [|discriminate].
  simpl in H. apply (raiz_no_neg (dx2 + dy2)); [|exact H].
  rewrite add_spec. apply SFadd_sumable.
  - apply (cuadrado_sumable pow _ _ Hpow (sub_no_nan _ _ Hpx Hqx) Ex).
  - apply (cuadrado_sumable pow _ _ Hpow (sub_no_nan _ _ Hpy Hqy) Ey).
Qed.

(** The correctly rounded square is a number whenever its argument is. *)
Lemma pow_redondeada_sin_nan : pow_sin_nan pow_redondeada.
Proof.
  intros x H0 _. unfold pow_redondeada. simpl fst.
  rewrite is_nan_sf, mul_spec. unfold SF64mul.
  assert (Hx : Prim2SF x <> S754_nan).
  { rewrite ltb_spec in H0. intros E. rewrite E in H0. discriminate. }
  pose proof (SFmul_cuadrado_no_neg prec emax _ Hx) as H.
  destruct (SFmul prec emax (Prim2SF x) (Prim2SF x));
    try reflexivity; contradiction.
Qed.

Local Close Scope float_scope.

Lemma mapear_nth {A B} (f : A -> resultado B) l ys :
  mapear f l = Ok ys ->
  forall i x, nth_error l i = Some x ->
              exists y, nth_error ys i = Some y /\ f x = Ok y.
Proof.
  revert ys; induction l as [|a l IH]; simpl; intros ys H i x Hi.
  - destruct i; discriminate.
  - destruct (f a) as [b|] eqn:E; [|discriminate]. simpl in H.
    destruct (mapear f l) as [bs|]; [|discriminate]. simpl in H.
    injection H as <-. destruct i as [|i]; simpl in *.
    + injection Hi as <-. eauto.
    + now apply IH.
Qed.

(** [matriz_distancias[i][j]] is the distance between the points [i]
    and [j]. *)
Lemma matriz_distancias_entrada pow coords m i j p q :
  matriz_distancias pow coords = Ok m ->
  nth_error coords i = Some p -> nth_error coords j = Some q ->
  exists d, entrada m i j = Ok d /\ calcular_distancia pow p q = Ok d.
Proof.
  intros Hm Hi Hj. unfold matriz_distancias in Hm.
  destruct (mapear_nth _ _ _ Hm i p Hi) as (fila & Ef & Hf).
  destruct (mapear_nth _ _ _ Hf j q Hj) as (d & Ed & Hd).
  exists d. split; [|exact Hd].
  unfold entrada, indice. rewrite Ef. simpl. now rewrite Ed.
Qed.

Lemma mapear_length {A B} (f : A -> resultado B) l ys :
  mapear f l = Ok ys -> length ys = length l.
Proof.
  revert ys; induction l as [|a l IH]; simpl; intros ys H.
  - now injection H as <-.
  - destruct (f a) as [b|]; [|discriminate]. simpl in H.
    destruct (mapear f l) as [bs|]; [|discriminate]. simpl in H.
    injection H as <-. simpl. now rewrite (IH bs).
Qed.

Lemma mapear_todos {A B} (P : B -> Prop) (f : A -> resultado B) l ys :
  (forall x y, In x l -> f x = Ok y -> P y) ->
  mapear f l = Ok ys -> Forall P ys.
Proof.
  revert ys; induction l as [|a l IH]; simpl; intros ys HP H.
  - injection H as <-. constructor.
  - destruct (f a) as [b|] eqn:E; [|discriminate]. simpl in H.
    destruct (mapear f l) as [bs|]; [|discriminate]. simpl in H.
    injection H as <-. constructor; eauto.
Qed.

(** The matrix has as many rows and columns as there are points. *)
Lemma matriz_distancias_cuadrada pow coords m :
  matriz_distancias pow coords = Ok m -> cuadrada (length coords) m.
Proof.
  intros H. split.
  - exact (mapear_length _ _ _ H).
  - apply (mapear_todos _ _ _ _ (fun p fila _ E => mapear_length _ _ _ E) H).
Qed.

(** The matrix is symmetric, entry by entry the same float. *)
Lemma matriz_distancias_simetrica pow coords m :
  matriz_distancias pow coords = Ok m -> simetrica m.
Proof.
  intros H i j.
  destruct (matriz_distancias_cuadrada pow coords m H) as [Hl Hf].
  rewrite Forall_forall in Hf.
  assert (Hfuera : forall a b, length coords <= a -> entrada m a b = Lanza IndexError
                               /\ entrada m b a = Lanza IndexError).
  { intros a b Ha. unfold entrada. split.
    - rewrite indice_fuera by lia. reflexivity.
    - destruct (indice m b) as [fila|e] eqn:E; simpl.
      + apply indice_fuera. rewrite (Hf fila (indice_in _ _ _ E)). exact Ha.
      + unfold indice in E. destruct (nth_error m b); [discriminate|].
        now injection E as <-. }
  destruct (le_lt_dec (length coords) i) as [Hi|Hi].
  { destruct (Hfuera i j Hi) as [-> ->]. reflexivity. }
  destruct (le_lt_dec (length coords) j) as [Hj|Hj].
  { destruct (Hfuera j i Hj) as [-> ->]. reflexivity. }
  destruct (nth_error coords i) as [p|] eqn:Ep;
    [|apply nth_error_None in Ep; lia].
  destruct (nth_error coords j) as [q|] eqn:Eq;
    [|apply nth_error_None in Eq; lia].
  destruct (matriz_distancias_entrada pow coords m i j p q H Ep Eq) as (d & -> & Hd).
  destruct (matriz_distancias_entrada pow coords m j i q p H Eq Ep) as (d' & -> & Hd').
  rewrite calcular_distancia_sim, Hd in Hd'. exact Hd'.
Qed.

(** C5. When the coordinates are finite, the matrix that
    [matriz_distancias] builds has, for all [i] and [j] in range,
    [matriz[i][i] == 0], [matriz[i][j] == matriz[j][i]] and
    [0 <= matriz[i][j]].  [x ** 2] is CPython's [float_pow] over the C
    library's [pow], of which only [pow_sin_nan] is assumed: the diagonal
    squares [0.0] without the library, [matriz[i][j]] and [matriz[j][i]]
    hand it the same arguments, and [math.sqrt] lets no negative sum
    through. *)
Theorem matriz_distancias_invariante pow coords m i j :
  pow_sin_nan pow ->
  Forall punto_finito coords -> matriz_distancias pow coords = Ok m ->
  i < length coords -> j < length coords ->
  exists dii dij dji,
    entrada m i i = Ok dii /\ (dii =? 0)%float = true
    /\ entrada m i j = Ok dij /\ entrada m j i = Ok dji
    /\ (dij =? dji)%float = true
    /\ (0 <=? dij)%float = true.
Proof.
  intros Hpow Hfin Hm Hi Hj. rewrite Forall_forall in Hfin.
  destruct (nth_error coords i) as [p|] eqn:Ep;
    [|apply nth_error_None in Ep; lia].
  destruct (nth_error coords j) as [q|] eqn:Eq;
    [|apply nth_error_None in Eq; lia].
  pose proof (Hfin p (nth_error_In _ _ Ep)) as Hp.
  pose proof (Hfin q (nth_error_In _ _ Eq)) as Hq.
  destruct (matriz_distancias_entrada pow coords m i i p p Hm Ep Ep) as (dii & Eii & Hii).
  destruct (matriz_distancias_entrada pow coords m i j p q Hm Ep Eq) as (dij & Eij & Hij).
  destruct (matriz_distancias_entrada pow coords m j i q p Hm Eq Ep) as (dji & Eji & Hji).
  exists dii, dij, dji.
  rewrite (calcular_distancia_diag pow p Hp) in Hii. injection Hii as <-.
  rewrite (calcular_distancia_sim pow q p), Hij in Hji. injection Hji as <-.
  pose proof (calcular_distancia_no_neg pow p q dij Hpow Hp Hq Hij) as Hnn.
  repeat split; auto. now apply eqb_refl.
Qed.

Lemma matriz_distancias_invariante_plaza :
  exists dii dij dji,
    entrada matriz_plaza 0 0 = Ok dii /\ (dii =? 0)%float = true
    /\ entrada matriz_plaza 0 2 = Ok dij /\ entrada matriz_plaza 2 0 = Ok dji
    /\ (dij =? dji)%float = true
    /\ (0 <=? dij)%float = true.
Proof.
  apply (matriz_distancias_invariante pow_redondeada plaza matriz_plaza 0 2).
  - exact pow_redondeada_sin_nan.
  - repeat constructor.
  - reflexivity.
  - simpl. lia.
  - simpl. lia.
Defined.

(** * Reversing a route *)

Lemma tramos_snoc c : forall r, r <> [] ->
  tramos (r ++ [c]) = tramos r ++ [(last r 0, c)].
Proof.
  induction r as [|a r IH]; intros Hr; [congruence|].
  destruct r as [|b r]; [reflexivity|].
  change (tramos ((a :: b :: r) ++ [c])) with ((a, b) :: tramos ((b :: r) ++ [c])).
  rewrite IH by discriminate. reflexivity.
Qed.

Definition girar (ab : nat * nat) : nat * nat := (snd ab, fst ab).

Lemma tramos_rev : forall r, tramos (rev r) = rev (map girar (tramos r)).
Proof.
  induction r as [|a r IH]; [reflexivity|].
  destruct r as [|b r]; [reflexivity|].
  change (rev (a :: b :: r)) with (rev (b :: r) ++ [a]).
  rewrite tramos_snoc.
  - rewrite IH.
    change (rev (b :: r)) with (rev r ++ [b]). rewrite last_last.
    reflexivity.
  - simpl. intros H. now apply app_eq_nil in H as [_ H].
Qed.

Lemma mapear_app {A B} (f : A -> resultado B) l1 l2 ys1 ys2 :
  mapear f l1 = Ok ys1 -> mapear f l2 = Ok ys2 ->
  mapear f (l1 ++ l2) = Ok (ys1 ++ ys2).
Proof.
  revert ys1; induction l1 as [|x l1 IH]; simpl; intros ys1 H1 H2.
  - now injection H1 as <-.
  - destruct (f x) as [y|]; [|discriminate]. simpl in *.
    destruct (mapear f l1) as [ys|]; [|discriminate]. simpl in *.
    injection H1 as <-. now rewrite (IH ys eq_refl H2).
Qed.

Lemma mapear_rev {A B} (f : A -> resultado B) l ys :
  mapear f l = Ok ys -> mapear f (rev l) = Ok (rev ys).
Proof.
  revert ys; induction l as [|x l IH]; simpl; intros ys H.
  - now injection H as <-.
  - destruct (f x) as [y|] eqn:E; [|discriminate]. simpl in H.
    destruct (mapear f l) as [ys'|]; [|discriminate]. simpl in H.
    injection H as <-. simpl. apply mapear_app; [now apply IH|].
    simpl. now rewrite E.
Qed.

Lemma mapear_map {A B C} (f : B -> resultado C) (g : A -> B) l :
  mapear f (map g l) = mapear (fun x => f (g x)) l.
Proof.
  induction l as [|x l IH]; simpl; [reflexivity|]. now rewrite IH.
Qed.

Lemma mapear_ext {A B} (f g : A -> resultado B) l :
  (forall x, f x = g x) -> mapear f l = mapear g l.
Proof.
  intros H. induction l as [|x l IH]; simpl; [reflexivity|].
  now rewrite H, IH.
Qed.

Lemma largos_rev m r ws :
  simetrica m -> largos m r = Ok ws -> largos m (rev r) = Ok (rev ws).
Proof.
  intros Hs H. unfold largos in *. rewrite tramos_rev.
  apply mapear_rev. rewrite mapear_map.
  rewrite (mapear_ext _ (fun ab => entrada m (fst ab) (snd ab))); [exact H|].
  intros [a b]. simpl. apply Hs.
Qed.

(** Three cities with small integer coordinates, and their matrix. *)
Definition tres_ciudades : list punto := [(0, 0); (0, 1); (3, 2)]%float.

Definition matriz_tres : matriz :=
  Eval vm_compute in
    match matriz_distancias pow_redondeada tres_ciudades with
    | Ok m => m
    | Lanza _ => []
    end.

(** The script hands the library [pow(3.0, 2.0)] and [pow(2.0, 2.0)] for
    this table and nothing else (the other differences are [0.0] and
    [-1.0]); with the exact [9.0] and [4.0] it builds [matriz_tres]. *)
Lemma matriz_tres_de_pow pow :
  pow 3%float 2%float = (9%float, Cero) ->
  pow 2%float 2%float = (4%float, Cero) ->
  matriz_distancias pow tres_ciudades = Ok matriz_tres.
Proof.
  intros H3 H2.
  assert (E3 : cuadrado pow (-3)%float = Ok 9%float).
  { unfold cuadrado, llamar_pow. simpl. rewrite H3. reflexivity. }
  assert (F3 : cuadrado pow 3%float = Ok 9%float).
  { unfold cuadrado, llamar_pow. simpl. rewrite H3. reflexivity. }
  assert (E2 : cuadrado pow (-2)%float = Ok 4%float).
  { unfold cuadrado, llamar_pow. simpl. rewrite H2. reflexivity. }
  assert (F2 : cuadrado pow 2%float = Ok 4%float).
  { unfold cuadrado, llamar_pow. simpl. rewrite H2. reflexivity. }
  unfold matriz_distancias, tres_ciudades, calcular_distancia.
  cbn [mapear fst snd].
  change (0 - 3)%float with (-3)%float. change (0 - 2)%float with (-2)%float.
  change (3 - 0)%float with 3%float. change (2 - 0)%float with 2%float.
  change (1 - 2)%float with (-1)%float. change (2 - 1)%float with 1%float.
  change (0 - 0)%float with 0%float. change (0 - 1)%float with (-1)%float.
  change (1 - 0)%float with 1%float. change (1 - 1)%float with 0%float.
  change (3 - 3)%float with 0%float. change (2 - 2)%float with 0%float.
  rewrite E3, F3, E2, F2. reflexivity.
Qed.

Lemma matriz_tres_construida :
  matriz_distancias pow_redondeada tres_ciudades = Ok matriz_tres.
Proof. apply matriz_tres_de_pow; reflexivity. Qed.

(** C8, as the specification has it, fails: for the cities at [(0, 0)],
    [(0, 1)] and [(3, 2)] the matrix that [matriz_distancias] builds (the
    squares it needs, [9.0] and [4.0], are exact) is symmetric, the route [[0, 1, 2, 0]] costs
    [(1.0 + sqrt(10)) + sqrt(13) = 7.7678289356323695] and its reverse
    [[0, 2, 1, 0]] costs [(sqrt(13) + sqrt(10)) + 1.0 = 7.7678289356323686],
    one unit in the last place less. *)
Lemma costo_inverso_difiere :
  matriz_distancias pow_redondeada tres_ciudades = Ok matriz_tres
  /\ simetrica matriz_tres
  /\ costo_ruta matriz_tres [0; 1; 2; 0] = Ok 7.7678289356323695%float
  /\ costo_ruta matriz_tres (rev [0; 1; 2; 0]) = Ok 7.7678289356323686%float
  /\ (7.7678289356323695 =? 7.7678289356323686)%float = false.
Proof.
  split; [exact matriz_tres_construida|].
  split; [exact (matriz_distancias_simetrica _ _ _ matriz_tres_construida)|].
  repeat split.
Qed.

(** On that table the two solvers return the same cycle in opposite
    directions, with costs that differ in the last bit. *)
Example tres_ciudades_sentidos :
  busqueda_exhaustiva 3 [] matriz_tres
  = Ok (Some [0; 2; 1; 0], 7.7678289356323686%float)
  /\ vecino_mas_cercano 3 [] matriz_tres
     = Some (Ok ([0; 1; 2; 0], 7.7678289356323695%float)).
Proof. split; reflexivity. Qed.

(** C8, amended. On a symmetric matrix the reversed route has the same
    legs with the same lengths, in reverse order; the cost of the route is
    the float sum of these lengths taken from 0 in route order, and the
    cost of the reversed route is their float sum taken in the opposite
    order. *)
Theorem costo_ruta_inversa m r ws :
  simetrica m -> largos m r = Ok ws ->
  largos m (rev r) = Ok (rev ws)
  /\ costo_ruta m r = Ok (sumar ws)
  /\ costo_ruta m (rev r) = Ok (sumar (rev ws)).
Proof.
  intros Hs H. pose proof (largos_rev m r ws Hs H) as Hr.
  unfold costo_ruta. rewrite !sumar_tramos_largos, H, Hr. auto.
Qed.

Lemma costo_ruta_inversa_tres :
  exists ws,
    largos matriz_tres [0; 1; 2; 0] = Ok ws
    /\ largos matriz_tres (rev [0; 1; 2; 0]) = Ok (rev ws)
    /\ costo_ruta matriz_tres [0; 1; 2; 0] = Ok (sumar ws)
    /\ costo_ruta matriz_tres (rev [0; 1; 2; 0]) = Ok (sumar (rev ws)).
Proof.
  eexists. split; [reflexivity|].
  apply (costo_ruta_inversa matriz_tres [0; 1; 2; 0]);
    [exact (matriz_distancias_simetrica _ _ _ matriz_tres_construida)
    |reflexivity].
Defined.

(** * Further properties of the distance functions *)

(** A specification float that is [nan] or not below zero: what
    [math.sqrt] can return. *)
Definition sf_nan_o_no_neg (f : spec_float) : Prop :=
  f = S754_nan \/ sf_no_neg f.

Lemma SFsqrt_nan_o_no_neg p e a :
  sf_nan_o_no_neg a -> sf_nan_o_no_neg (SFsqrt p e a).
Proof.
  intros [->|Ha]; [now left|right; now apply SFsqrt_no_neg].
Qed.

Lemma nan_o_no_neg_float d :
  sf_nan_o_no_neg (Prim2SF d) -> is_nan d = true \/ (0 <=? d)%float = true.
Proof.
  intros [H|H].
  - left. unfold is_nan. rewrite eqb_spec, H. reflexivity.
  - right. now apply no_negativo_spec.
Qed.

(** [math.sqrt] stops every number below zero; what it lets through has
    a root that is [nan] or not below zero. *)
Lemma raiz_casos x :
  raiz x = Lanza ValueError
  \/ (raiz x = Ok (sqrt x) /\ sf_nan_o_no_neg (Prim2SF (sqrt x))).
Proof.
  unfold raiz. rewrite ltb_spec.
  change (Prim2SF 0%float) with (S754_zero false).
  destruct (SFltb (Prim2SF x) (S754_zero false)) eqn:E; [now left|].
  right. split; [reflexivity|]. rewrite sqrt_spec.
  apply SFsqrt_nan_o_no_neg.
  destruct (Prim2SF x) as [s|[|]| |[|] mx ex]; simpl in E;
    try discriminate; try (now left); right; exact I.
Qed.

Lemma cuadrado_lanza pow x e :
  cuadrado pow x = Lanza e -> e = OverflowError \/ e = ValueError.
Proof.
  rewrite cuadrado_clases.
  destruct (Prim2SF x) as [s|s| |s mx ex]; try discriminate.
  unfold llamar_pow. destruct (abs x =? 1)%float; [discriminate|].
  destruct (pow (abs x) 2%float) as [ix er].
  destruct (ajustar_erange ix er); [discriminate| |]; intros [= <-]; auto.
Qed.

Lemma calcular_distancia_casos pow p q :
  calcular_distancia pow p q = Lanza OverflowError
  \/ calcular_distancia pow p q = Lanza ValueError
  \/ exists d, calcular_distancia pow p q = Ok d
               /\ sf_nan_o_no_neg (Prim2SF d).
Proof.
  unfold calcular_distancia.
  destruct (cuadrado pow (fst p - fst q)%float) as [dx2|e] eqn:Ex;
    cbn [ligar];
    [|destruct (cuadrado_lanza _ _ _ Ex) as [-> | ->]; auto].
  destruct (cuadrado pow (snd p - snd q)%float) as [dy2|e] eqn:Ey;
    cbn [ligar];
    [|destruct (cuadrado_lanza _ _ _ Ey) as [-> | ->]; auto].
  destruct (raiz_casos (dx2 + dy2)%float) as [->|[-> H]]; eauto.
Qed.

Lemma calcular_distancia_lanza pow p q e :
  calcular_distancia pow p q = Lanza e ->
  e = OverflowError \/ e = ValueError.
Proof.
  destruct (calcular_distancia_casos pow p q) as [->|[->|[d [-> _]]]];
    [intros [= <-]; auto|intros [= <-]; auto|discriminate].
Qed.

(** X1. [calcular_distancia] never returns a number below zero, on any C
    library: whatever the coordinates and whatever [pow] returns, it
    raises [OverflowError] or [ValueError], or it returns a number that is
    [nan] or passes [0 <= d] (a negative sum of squares stops at
    [math.sqrt]). *)
Theorem calcular_distancia_resultado pow p q :
  calcular_distancia pow p q = Lanza OverflowError
  \/ calcular_distancia pow p q = Lanza ValueError
  \/ exists d, calcular_distancia pow p q = Ok d
               /\ (is_nan d = true \/ (0 <=? d)%float = true).
Proof.
  destruct (calcular_distancia_casos pow p q) as [H|[H|[d [H Hd]]]];
    [now left|now right; left|].
  right. right. exists d. split; [exact H|now apply nan_o_no_neg_float].
Qed.

Lemma sub_diag_no_finito x : is_finite x = false -> (x - x)%float = nan.
Proof.
  intros H. apply Prim2SF_inj. rewrite sub_spec.
  rewrite is_finite_spec in H. change (Prim2SF nan) with S754_nan.
  destruct (Prim2SF x) as [s|s| |s mx ex]; try discriminate;
    try reflexivity.
  now destruct s.
Qed.

(** X2. The distance from a point to itself never raises: it is [0.0] when
    both coordinates are finite and [nan] when one is infinite or [nan]. *)
Theorem calcular_distancia_mismo_punto pow p :
  calcular_distancia pow p p
  = Ok (if is_finite (fst p) && is_finite (snd p) then 0%float else nan).
Proof.
  unfold calcular_distancia.
  destruct (is_finite (fst p)) eqn:Ex, (is_finite (snd p)) eqn:Ey;
    rewrite ?(sub_diag _ Ex), ?(sub_diag _ Ey),
            ?(sub_diag_no_finito _ Ex), ?(sub_diag_no_finito _ Ey);
    reflexivity.
Qed.

(** X3. The matrix that [matriz_distancias] builds has a row and a column per
    point, holds at [i][j] what [calcular_distancia] gives for the points
    [i] and [j], and is symmetric, whatever the coordinates and the C
    library. *)
Theorem matriz_distancias_forma pow coords m :
  matriz_distancias pow coords = Ok m ->
  cuadrada (length coords) m
  /\ simetrica m
  /\ forall i j p q,
       nth_error coords i = Some p -> nth_error coords j = Some q ->
       entrada m i j = calcular_distancia pow p q.
Proof.
  intros H. split; [now apply (matriz_distancias_cuadrada pow)|].
  split; [now apply (matriz_distancias_simetrica pow coords)|].
  intros i j p q Hi Hj.
  destruct (matriz_distancias_entrada pow coords m i j p q H Hi Hj)
    as (d & -> & ->).
  reflexivity.
Qed.

Lemma matriz_distancias_forma_tres :
  cuadrada (length tres_ciudades) matriz_tres
  /\ simetrica matriz_tres
  /\ forall i j p q,
       nth_error tres_ciudades i = Some p ->
       nth_error tres_ciudades j = Some q ->
       entrada matriz_tres i j = calcular_distancia pow_redondeada p q.
Proof.
  apply (matriz_distancias_forma pow_redondeada tres_ciudades matriz_tres).
  reflexivity.
Defined.

Lemma mapear_lanza {A B} (f : A -> resultado B) l e :
  mapear f l = Lanza e -> exists x, In x l /\ f x = Lanza e.
Proof.
  induction l as [|a l IH]; simpl; intros H; [discriminate|].
  destruct (f a) as [b|e'] eqn:E; simpl in H.
  - destruct (mapear f l) as [bs|e'']; [discriminate|]. simpl in H.
    injection H as ->. destruct (IH eq_refl) as (x & Hx & Ex). eauto.
  - injection H as ->. eauto.
Qed.

Lemma mapear_ok {A B} (f : A -> resultado B) l ys :
  mapear f l = Ok ys -> forall x, In x l -> exists y, f x = Ok y.
Proof.
  revert ys; induction l as [|a l IH]; simpl; intros ys H x Hx; [easy|].
  destruct (f a) as [b|] eqn:E; [|discriminate]. simpl in H.
  destruct (mapear f l) as [bs|]; [|discriminate].
  destruct Hx as [<-|Hx]; eauto.
Qed.

(** X4. Building the matrix succeeds exactly when every pairwise distance can
    be computed; otherwise the two loops stop with the exception of a pair
    of points whose distance raises, [OverflowError] or [ValueError], and
    with nothing else. *)
Theorem matriz_distancias_construye pow coords :
  (exists m, matriz_distancias pow coords = Ok m
             /\ forall p q, In p coords -> In q coords ->
                            exists d, calcular_distancia pow p q = Ok d)
  \/ (exists e p q,
        (e = OverflowError \/ e = ValueError)
        /\ matriz_distancias pow coords = Lanza e
        /\ In p coords /\ In q coords
        /\ calcular_distancia pow p q = Lanza e).
Proof.
  unfold matriz_distancias.
  destruct (mapear _ coords) as [m|e] eqn:E.
  - left. exists m. split; [reflexivity|]. intros p q Hp Hq.
    destruct (mapear_ok _ _ _ E p Hp) as [fila Ef].
    exact (mapear_ok _ _ _ Ef q Hq).
  - right. destruct (mapear_lanza _ _ _ E) as (p & Hp & Ep).
    destruct (mapear_lanza _ _ _ Ep) as (q & Hq & Eq).
    exists e, p, q.
    split; [exact (calcular_distancia_lanza pow p q e Eq)|]. auto.
Qed.

(** * What the solvers can return, on any matrix *)

Lemma entrada_lanza m i j e : entrada m i j = Lanza e -> e = IndexError.
Proof.
  unfold entrada, indice. destruct (nth_error m i) as [fila|]; simpl.
  - destruct (nth_error fila j); [discriminate|now intros [= <-]].
  - now intros [= <-].
Qed.

Lemma sumar_tramos_lanza m : forall r acc e,
  sumar_tramos m acc r = Lanza e -> e = IndexError.
Proof.
  induction r as [|a r IH]; intros acc e H; [discriminate|].
  destruct r as [|b r]; [discriminate|].
  change (sumar_tramos m acc (a :: b :: r))
    with (d <- entrada m a b ;; sumar_tramos m (acc + d)%float (b :: r)) in H.
  destruct (entrada m a b) as [d|e'] eqn:E; cbn [ligar] in H.
  - now apply IH in H.
  - injection H as <-. now apply entrada_lanza in E.
Qed.

(** Below something is below [float('inf')]. *)
Lemma ltb_infinity d s : (d <? s)%float = true -> (d <? infinity)%float = true.
Proof.
  rewrite !ltb_spec. change (Prim2SF infinity) with (S754_infinity false).
  destruct (Prim2SF d) as [sd|sd| |sd md ed], (Prim2SF s) as [ss|ss| |ss ms es];
    try destruct sd; try destruct ss; try reflexivity; try discriminate.
Qed.

Section EscogerGeneral.

Context {A B : Type}.
Variable F : A -> resultado float.
Variable g : A -> B.

(** Whatever [F] gives, the pair the loop leaves is the one it started
    from or an element it went through, with the value [F] gave for it,
    and that value is below [float('inf')]. *)
Lemma para_cada_escoger_origen : forall xs o c o' c',
  para_cada (escoger F g) xs (o, c) = Ok (o', c') ->
  (o' = o /\ c' = c)
  \/ exists x, In x xs /\ o' = Some (g x) /\ F x = Ok c'
               /\ (c' <? infinity)%float = true.
Proof.
  induction xs as [|x xs IH]; simpl; intros o c o' c' H.
  - injection H as <- <-. now left.
  - unfold escoger at 1 in H. destruct (F x) as [d|] eqn:E; [|discriminate].
    simpl in H. destruct (d <? c)%float eqn:Elt.
    + apply IH in H as [[-> ->]|(z & Hz & Ho & Ez & Hfin)]; right.
      * exists x. repeat split; auto. now apply (ltb_infinity d c).
      * exists z. auto.
    + apply IH in H as [H|(z & Hz & Ho & Ez & Hfin)]; [now left|right].
      exists z. auto.
Qed.

Lemma para_cada_escoger_lanza : forall xs st e,
  para_cada (escoger F g) xs st = Lanza e ->
  exists x, In x xs /\ F x = Lanza e.
Proof.
  induction xs as [|x xs IH]; simpl; intros st e H; [discriminate|].
  unfold escoger at 1 in H. destruct (F x) as [d|e'] eqn:E; simpl in H.
  - destruct (d <? snd st)%float;
      apply IH in H as (z & Hz & Ez); eauto.
  - injection H as <-. eauto.
Qed.

End EscogerGeneral.

(** X5. On every matrix, of any shape and with any floats,
    [busqueda_exhaustiva] raises [IndexError], or returns
    [(None, inf)], or returns a closed route over a permutation of
    [1 .. n-1] together with the cost that lines 61-63 sum along that very
    route, a cost below [float('inf')].  It raises nothing else and never
    pairs a route with another route's cost. *)
Theorem busqueda_exhaustiva_salidas n nombres m :
  busqueda_exhaustiva n nombres m = Lanza IndexError
  \/ busqueda_exhaustiva n nombres m = Ok (None, infinity)
  \/ exists p c,
       busqueda_exhaustiva n nombres m = Ok (Some ([0] ++ p ++ [0]), c)
       /\ Permutation p (rango 1 n)
       /\ costo_ruta m ([0] ++ p ++ [0]) = Ok c
       /\ (c <? infinity)%float = true.
Proof.
  unfold busqueda_exhaustiva. rewrite probar_escoger.
  destruct (para_cada _ _ _) as [[o c]|e] eqn:E.
  - right.
    apply para_cada_escoger_origen in E as [[-> ->]|(p & Hp & -> & Ec & Hfin)].
    + now left.
    + right. exists p, c. repeat split; auto.
      now apply permutations_spec.
  - left. apply para_cada_escoger_lanza in E as (p & _ & Ep).
    now apply sumar_tramos_lanza in Ep as ->.
Qed.

Lemma paso_conserva n m st st' :
  invariante n m st -> paso m st = Ok st' -> invariante n m st'.
Proof.
  intros (vis & Hr & Hp & Hact & Hcost). unfold paso.
  rewrite mirar_escoger.
  destruct (para_cada _ _ _) as [[[c|] d]|] eqn:E; simpl; try discriminate.
  intros [= <-].
  apply para_cada_escoger_origen in E as [[E _]|(x & Hx & Ex & Ed & _)];
    [discriminate|]. injection Ex as ->.
  assert (Hnd : NoDup (no_visitadas st)).
  { apply (NoDup_app_remove_l vis).
    apply (Permutation_NoDup (Permutation_sym Hp)). apply seq_NoDup. }
  pose proof (remove_perm x _ Hnd Hx) as Hrem.
  exists (vis ++ [x]). simpl. repeat split.
  - now rewrite Hr.
  - rewrite <- Hp, <- app_assoc. simpl.
    apply Permutation_app_head. now symmetry.
  - now rewrite last_last.
  - unfold costo_ruta in *. rewrite sumar_tramos_snoc.
    + rewrite Hcost; simpl. rewrite <- Hact, Ed. reflexivity.
    + rewrite Hr. discriminate.
Qed.

Lemma paso_lanza m st e :
  paso m st = Lanza e -> e = IndexError \/ e = KeyError.
Proof.
  unfold paso. rewrite mirar_escoger.
  destruct (para_cada _ _ _) as [[[c|] d]|e'] eqn:E; simpl; try discriminate.
  - intros [= <-]. now right.
  - intros [= <-]. left.
    apply para_cada_escoger_lanza in E as (x & _ & Ex).
    now apply entrada_lanza in Ex.
Qed.

Lemma mientras_salidas n m : forall vueltas st r,
  invariante n m st -> mientras vueltas m st = Some r ->
  r = Lanza IndexError \/ r = Lanza KeyError
  \/ exists st', r = Ok st' /\ invariante n m st' /\ no_visitadas st' = [].
Proof.
  induction vueltas as [|v IH]; intros st r Hinv H; simpl in H.
  - destruct (no_visitadas st) eqn:E; [|discriminate].
    injection H as <-. right. right. eauto.
  - destruct (no_visitadas st) eqn:E.
    + injection H as <-. right. right. eauto.
    + destruct (paso m st) as [st'|e] eqn:Ep.
      * apply (IH st'); [|exact H]. now apply (paso_conserva n m st).
      * injection H as <-. apply paso_lanza in Ep as [->| ->]; auto.
Qed.

(** X6. On every matrix [vecino_mas_cercano] ends.  It raises [IndexError]
    (an index past the matrix) or [KeyError] (no unvisited city at a
    distance below [float('inf')]), or it returns a closed route over a
    permutation of [1 .. n-1] together with the cost that lines 61-63
    would sum along that route. *)
Theorem vecino_mas_cercano_salidas n nombres m :
  vecino_mas_cercano n nombres m = Some (Lanza IndexError)
  \/ vecino_mas_cercano n nombres m = Some (Lanza KeyError)
  \/ exists p c,
       vecino_mas_cercano n nombres m = Some (Ok ([0] ++ p ++ [0], c))
       /\ Permutation p (rango 1 n)
       /\ costo_ruta m ([0] ++ p ++ [0]) = Ok c.
Proof.
  pose proof (vecino_termina n nombres m) as Hterm.
  unfold vecino_mas_cercano in *.
  destruct (mientras n m (estado_inicial n)) as [r|] eqn:E; [|congruence].
  destruct (mientras_salidas n m n _ r (invariante_inicial n m) E)
    as [->|[->|(st & -> & (vis & Hr & Hp & Hact & Hcost) & Hnv)]]; auto.
  simpl. unfold cerrar.
  destruct (entrada m (actual st) 0) as [d|e] eqn:Ed; simpl.
  - right. right. rewrite Hnv, app_nil_r in Hp.
    exists vis, (distancia_total st + d)%float. rewrite Hr.
    repeat split; auto.
    unfold costo_ruta in *.
    change (0 :: vis ++ [0]) with ((0 :: vis) ++ [0]).
    rewrite sumar_tramos_snoc by discriminate.
    rewrite <- Hr, Hcost; simpl. rewrite <- Hact, Ed. reflexivity.
  - left. now apply entrada_lanza in Ed as ->.
Qed.

(** * A matrix that does not fit the global [n] *)

Lemma entrada_fuera k m i j :
  cuadrada k m -> k <= i \/ k <= j -> entrada m i j = Lanza IndexError.
Proof.
  intros [Hl Hf] H. unfold entrada.
  destruct (le_lt_dec k i) as [Hi|Hi].
  - rewrite indice_fuera by lia. reflexivity.
  - destruct (indice_ok m i) as [fila E]; [lia|]. rewrite E; simpl.
    apply indice_fuera. rewrite Forall_forall in Hf.
    rewrite (Hf fila (indice_in _ _ _ E)). lia.
Qed.

Lemma sumar_tramos_fuera k m : cuadrada k m ->
  forall r acc, 2 <= length r -> Exists (fun i => k <= i) r ->
  sumar_tramos m acc r = Lanza IndexError.
Proof.
  intros Hm. induction r as [|a r IH]; intros acc Hlen Hex;
    [simpl in Hlen; lia|].
  destruct r as [|b r]; [simpl in Hlen; lia|].
  change (sumar_tramos m acc (a :: b :: r))
    with (d <- entrada m a b ;; sumar_tramos m (acc + d)%float (b :: r)).
  destruct (le_lt_dec k a) as [Ha|Ha];
    [rewrite (entrada_fuera k m a b Hm) by auto; reflexivity|].
  destruct (le_lt_dec k b) as [Hb|Hb];
    [rewrite (entrada_fuera k m a b Hm) by auto; reflexivity|].
  destruct (entrada_ok k m a b Hm Ha Hb) as [d ->]. cbn [ligar].
  inversion Hex as [? ? H|? ? H]; subst; [lia|].
  inversion H as [? ? H'|? ? H']; subst; [lia|].
  apply IH; [|exact H].
  destruct r; [inversion H'|simpl; lia].
Qed.

Lemma para_cada_lanza_seguro {A S} (f : S -> A -> resultado S) e0 l :
  (forall st x e, f st x = Lanza e -> e = e0) ->
  (exists x, In x l /\ forall st, f st x = Lanza e0) ->
  forall st, para_cada f l st = Lanza e0.
Proof.
  intros Hunico. induction l as [|a l IH]; intros (x & Hx & Ex) st;
    [easy|]. simpl.
  destruct (f st a) as [st'|e] eqn:E; simpl.
  - apply IH. destruct Hx as [->|Hx]; [|eauto].
    rewrite Ex in E. discriminate.
  - now rewrite (Hunico _ _ _ E).
Qed.

Lemma mirar_lanza m a st v e : mirar m a st v = Lanza e -> e = IndexError.
Proof.
  unfold mirar. destruct (entrada m a v) as [d|e'] eqn:E; simpl.
  - destruct (d <? snd st)%float; discriminate.
  - intros [= <-]. now apply entrada_lanza in E.
Qed.

Lemma vecino_primer_paso_lanza n nombres m e :
  2 <= n -> paso m (estado_inicial n) = Lanza e ->
  vecino_mas_cercano n nombres m = Some (Lanza e).
Proof.
  intros Hn H. unfold vecino_mas_cercano.
  destruct n as [|[|n]]; [lia|lia|].
  change (mientras (S (S n)) m (estado_inicial (S (S n))))
    with (match paso m (estado_inicial (S (S n))) with
          | Ok st' => mientras (S n) m st'
          | Lanza e => Some (Lanza e)
          end).
  rewrite H. reflexivity.
Qed.

(** X7. The solvers take the number of cities from the global [n], not from
    the matrix: given a square matrix with fewer than [n] rows, both raise
    [IndexError]. *)
Theorem matriz_menor_que_n n nombres k m :
  cuadrada k m -> k < n ->
  busqueda_exhaustiva n nombres m = Lanza IndexError
  /\ vecino_mas_cercano n nombres m = Some (Lanza IndexError).
Proof.
  intros Hm Hk. split.
  - unfold busqueda_exhaustiva.
    pose proof (proj2 (permutations_spec (rango 1 n) (rango 1 n))
                  (Permutation_refl _)) as Hin.
    destruct (permutations (rango 1 n)) as [|p ps] eqn:E; [easy|].
    assert (Hp : Permutation p (rango 1 n)).
    { apply permutations_spec. rewrite E. now left. }
    assert (Hex : Exists (fun i => k <= i) ([0] ++ p ++ [0])).
    { apply Exists_exists. exists (n - 1). split; [|lia].
      destruct (Nat.eq_dec n 1) as [->|Hn]; [now left|].
      apply in_or_app. right. apply in_or_app. left.
      apply (Permutation_in _ (Permutation_sym Hp)), rango_in. lia. }
    assert (Hlen : 2 <= length ([0] ++ p ++ [0])).
    { rewrite !length_app. simpl. lia. }
    cbn [para_cada]. unfold probar, costo_ruta.
    rewrite (sumar_tramos_fuera k m Hm _ _ Hlen Hex). reflexivity.
  - unfold vecino_mas_cercano.
    destruct (Nat.eq_dec n 1) as [->|Hn].
    + simpl. unfold cerrar. simpl.
      rewrite (entrada_fuera k m 0 0 Hm) by lia. reflexivity.
    + fold (vecino_mas_cercano n nombres m).
      apply vecino_primer_paso_lanza; [lia|].
      unfold paso. simpl.
      rewrite (para_cada_lanza_seguro (mirar m 0) IndexError);
        [reflexivity|intros st x e; apply mirar_lanza|].
      exists (n - 1). split; [apply rango_in; lia|].
      intros st. unfold mirar.
      rewrite (entrada_fuera k m 0 (n - 1) Hm) by lia. reflexivity.
Qed.

Lemma matriz_menor_que_n_ejemplo :
  busqueda_exhaustiva 2 [] [[0%float]] = Lanza IndexError
  /\ vecino_mas_cercano 2 [] [[0%float]] = Some (Lanza IndexError).
Proof.
  apply (matriz_menor_que_n 2 [] 1 [[0%float]]); [valida|lia].
Defined.

(** * No distance below [float('inf')] *)

(** Not below [float('inf')]: [inf] itself, or [nan]. *)
Definition tope (d : float) : Prop := (d <? infinity)%float = false.

Lemma tope_spec d :
  tope d <-> Prim2SF d = S754_nan \/ Prim2SF d = S754_infinity false.
Proof.
  unfold tope. rewrite ltb_spec.
  change (Prim2SF infinity) with (S754_infinity false).
  destruct (Prim2SF d) as [s|s| |s md ed]; try destruct s; simpl;
    split; intros H; auto; try discriminate;
    destruct H as [H|H]; discriminate.
Qed.

Lemma tope_ltb d s : tope d -> (d <? s)%float = false.
Proof.
  unfold tope. intros H. destruct (d <? s)%float eqn:E; [|reflexivity].
  apply ltb_infinity in E. congruence.
Qed.

Lemma add_tope acc d : acc = 0%float \/ tope acc -> tope d -> tope (acc + d).
Proof.
  rewrite !tope_spec, add_spec. unfold SF64add. intros [->|[Ha|Ha]] [Hd|Hd];
    try change (Prim2SF 0%float) with (S754_zero false);
    rewrite ?Ha, ?Hd; simpl; auto.
Qed.

(** The ends of every leg of the route differ. *)
Definition sin_lazos (r : list nat) : Prop :=
  Forall (fun ab => fst ab <> snd ab) (tramos r).

Lemma sumar_tramos_tope n m :
  cuadrada n m ->
  (forall i j d, i <> j -> entrada m i j = Ok d -> tope d) ->
  forall r acc, Forall (fun i => i < n) r -> sin_lazos r ->
    (2 <= length r /\ acc = 0%float) \/ tope acc ->
    exists c, sumar_tramos m acc r = Ok c /\ tope c.
Proof.
  intros Hm Htope. induction r as [|a r IH]; intros acc Hr Hl Hacc.
  - destruct Hacc as [[H _]|H]; [simpl in H; lia|]. simpl. eauto.
  - destruct r as [|b r].
    + destruct Hacc as [[H _]|H]; [simpl in H; lia|]. simpl. eauto.
    + change (sumar_tramos m acc (a :: b :: r))
        with (d <- entrada m a b ;; sumar_tramos m (acc + d)%float (b :: r)).
      inversion Hr as [|? ? Ha Hr']; subst.
      inversion Hr' as [|? ? Hb _]; subst.
      unfold sin_lazos in Hl. simpl tramos in Hl.
      inversion Hl as [|? ? Hab Hl']; subst. simpl in Hab.
      destruct (entrada_ok n m a b Hm Ha Hb) as [d Ed]. rewrite Ed.
      cbn [ligar]. apply IH; auto. right.
      apply add_tope; [|exact (Htope a b d Hab Ed)].
      destruct Hacc as [[_ ->]|H]; auto.
Qed.

Lemma tramos_sin_repetir (l : list nat) : NoDup l -> sin_lazos l.
Proof.
  unfold sin_lazos. induction l as [|a l IH]; intros H; [constructor|].
  destruct l as [|b l]; [constructor|].
  inversion H as [|? ? Ha H']; subst. simpl. constructor.
  - simpl. intros ->. apply Ha. now left.
  - now apply IH.
Qed.

Lemma circuito_sin_lazos n p :
  2 <= n -> Permutation p (rango 1 n) -> sin_lazos (circuito p).
Proof.
  intros Hn Hp.
  assert (Hin : forall x, In x p -> 1 <= x < n).
  { intros x Hx. now apply (Permutation_in _ Hp), rango_in in Hx. }
  assert (Hnd : NoDup (0 :: p)).
  { constructor.
    - intros H. apply Hin in H. lia.
    - apply (Permutation_NoDup (Permutation_sym Hp)). apply seq_NoDup. }
  unfold circuito, sin_lazos.
  change ([0] ++ p ++ [0]) with ((0 :: p) ++ [0]).
  rewrite tramos_snoc by discriminate. apply Forall_app. split.
  - now apply tramos_sin_repetir.
  - constructor; [|constructor]. simpl.
    destruct p as [|x p].
    + apply Permutation_length in Hp. unfold rango in Hp.
      rewrite length_seq in Hp. simpl in Hp. lia.
    + assert (H : In (last (x :: p) 0) (x :: p))
        by (apply last_in; discriminate).
      apply Hin in H. change (last (0 :: x :: p) 0) with (last (x :: p) 0). lia.
Qed.

Lemma para_cada_escoger_nada {A B} (F : A -> resultado float) (g : A -> B) :
  forall xs st,
    (forall x, In x xs -> exists c, F x = Ok c /\ tope c) ->
    para_cada (escoger F g) xs st = Ok st.
Proof.
  induction xs as [|x xs IH]; intros st H; [reflexivity|]. simpl.
  destruct (H x (or_introl eq_refl)) as (c & Ec & Hc).
  unfold escoger at 1. rewrite Ec. simpl. rewrite (tope_ltb c _ Hc).
  simpl. apply IH. intros y Hy. apply H. now right.
Qed.

(** X8. When no two different cities are at a distance below [float('inf')]
    (every such entry is [inf] or [nan]), [busqueda_exhaustiva] finds no
    route and returns [(None, inf)], and [vecino_mas_cercano] raises
    [KeyError] at its first turn. *)
Theorem sin_distancias_finitas n nombres m :
  2 <= n -> cuadrada n m ->
  (forall i j d, i <> j -> entrada m i j = Ok d ->
                 (d <? infinity)%float = false) ->
  busqueda_exhaustiva n nombres m = Ok (None, infinity)
  /\ vecino_mas_cercano n nombres m = Some (Lanza KeyError).
Proof.
  intros Hn Hm Htope. split.
  - unfold busqueda_exhaustiva. rewrite probar_escoger.
    apply para_cada_escoger_nada. intros p Hp.
    apply permutations_spec in Hp. unfold costo_ruta.
    apply (sumar_tramos_tope n m Hm Htope).
    + apply circuito_en_rango; [lia|exact Hp].
    + now apply (circuito_sin_lazos n).
    + left. split; [|reflexivity]. unfold circuito.
      rewrite !length_app. simpl. lia.
  - apply vecino_primer_paso_lanza; [exact Hn|].
    unfold paso. rewrite mirar_escoger. simpl.
    rewrite para_cada_escoger_nada; [reflexivity|].
    intros v Hv. apply rango_in in Hv.
    destruct (entrada_ok n m 0 v Hm) as [d Ed]; [lia|lia|].
    exists d. split; [exact Ed|]. apply (Htope 0 v d); [lia|exact Ed].
Qed.

Lemma sin_distancias_finitas_ejemplo :
  busqueda_exhaustiva 2 [] [[0; infinity]; [infinity; 0]]%float
  = Ok (None, infinity)
  /\ vecino_mas_cercano 2 [] [[0; infinity]; [infinity; 0]]%float
     = Some (Lanza KeyError).
Proof.
  apply (sin_distancias_finitas 2 [] [[0; infinity]; [infinity; 0]]%float);
    [lia|valida|].
  intros i j d Hij.
  destruct i as [|[|i]], j as [|[|j]]; try congruence;
    try (intros [= <-]; reflexivity);
    try (destruct i; discriminate); try (destruct j; discriminate).
Defined.

(** * A matrix larger than the global [n] *)

(** The first [n] rows and columns of a matrix. *)
Definition esquina (n : nat) (m : matriz) : matriz :=
  map (firstn n) (firstn n m).

Lemma indice_firstn {A} n (l : list A) i :
  i < n -> indice (firstn n l) i = indice l i.
Proof.
  intros H. unfold indice. rewrite nth_error_firstn.
  now rewrite (proj2 (Nat.ltb_lt i n) H).
Qed.

Lemma entrada_esquina n m i j :
  i < n -> j < n -> entrada (esquina n m) i j = entrada m i j.
Proof.
  intros Hi Hj. unfold entrada, esquina, indice at 1 3.
  rewrite nth_error_map, nth_error_firstn, (proj2 (Nat.ltb_lt i n) Hi).
  destruct (nth_error m i) as [fila|]; simpl; [|reflexivity].
  now apply indice_firstn.
Qed.

Lemma sumar_tramos_esquina n m : forall r acc,
  Forall (fun i => i < n) r ->
  sumar_tramos (esquina n m) acc r = sumar_tramos m acc r.
Proof.
  induction r as [|a r IH]; intros acc Hr; [reflexivity|].
  destruct r as [|b r]; [reflexivity|].
  inversion Hr as [|? ? Ha Hr']; subst. inversion Hr' as [|? ? Hb _]; subst.
  change (sumar_tramos (esquina n m) acc (a :: b :: r))
    with (d <- entrada (esquina n m) a b ;;
          sumar_tramos (esquina n m) (acc + d)%float (b :: r)).
  change (sumar_tramos m acc (a :: b :: r))
    with (d <- entrada m a b ;; sumar_tramos m (acc + d)%float (b :: r)).
  rewrite (entrada_esquina n m a b Ha Hb).
  destruct (entrada m a b); cbn [ligar]; [now apply IH|reflexivity].
Qed.

Lemma para_cada_ext {A S} (f g : S -> A -> resultado S) l :
  (forall x, In x l -> forall st, f st x = g st x) ->
  forall st, para_cada f l st = para_cada g l st.
Proof.
  induction l as [|a l IH]; intros H st; [reflexivity|]. simpl.
  rewrite (H a (or_introl eq_refl)). destruct (g st a); simpl; [|reflexivity].
  apply IH. intros x Hx. apply H. now right.
Qed.

(** The current city and the unvisited ones are below [n]. *)
Definition en_rango (n : nat) (st : estado_vecino) : Prop :=
  actual st < n /\ Forall (fun i => i < n) (no_visitadas st).

Lemma paso_esquina n m st :
  en_rango n st -> paso (esquina n m) st = paso m st.
Proof.
  intros [Ha Hnv]. unfold paso.
  rewrite (para_cada_ext (mirar (esquina n m) (actual st)) (mirar m (actual st)));
    [reflexivity|].
  intros v Hv st'. unfold mirar. rewrite Forall_forall in Hnv.
  now rewrite (entrada_esquina n m _ _ Ha (Hnv v Hv)).
Qed.

Lemma paso_en_rango n m st st' :
  en_rango n st -> paso m st = Ok st' -> en_rango n st'.
Proof.
  intros [Ha Hnv]. unfold paso. rewrite mirar_escoger.
  destruct (para_cada _ _ _) as [[[c|] d]|] eqn:E; simpl; try discriminate.
  intros [= <-]. rewrite Forall_forall in Hnv.
  apply para_cada_escoger_elige in E as [E|[x [Hx ->]]]; [discriminate|].
  split; simpl; [now apply Hnv|].
  apply Forall_forall. intros y Hy. apply in_remove in Hy as [Hy _]. auto.
Qed.

Lemma mientras_esquina n m : forall vueltas st,
  en_rango n st ->
  mientras vueltas (esquina n m) st = mientras vueltas m st
  /\ forall st', mientras vueltas m st = Some (Ok st') -> en_rango n st'.
Proof.
  induction vueltas as [|v IH]; intros st Hst; simpl.
  - destruct (no_visitadas st); split; try reflexivity; try discriminate.
    now intros st' [= <-].
  - destruct (no_visitadas st); [split; [reflexivity|now intros st' [= <-]]|].
    rewrite (paso_esquina n m st Hst).
    destruct (paso m st) as [st1|e] eqn:E.
    + apply IH. now apply (paso_en_rango n m st).
    + split; [reflexivity|discriminate].
Qed.

(** X9. With [n >= 1] the solvers read only the first [n] rows and columns of
    the matrix: on a larger matrix they return what they return on its
    top-left [n]-by-[n] corner, the other cities being ignored. *)
Theorem solo_la_esquina n nombres m :
  1 <= n ->
  busqueda_exhaustiva n nombres m
  = busqueda_exhaustiva n nombres (esquina n m)
  /\ vecino_mas_cercano n nombres m
     = vecino_mas_cercano n nombres (esquina n m).
Proof.
  intros Hn. split.
  - unfold busqueda_exhaustiva. symmetry. apply para_cada_ext.
    intros p Hp st. apply permutations_spec in Hp.
    unfold probar, costo_ruta.
    now rewrite (sumar_tramos_esquina n m _ _ (circuito_en_rango n p Hn Hp)).
  - unfold vecino_mas_cercano.
    assert (H0 : en_rango n (estado_inicial n)).
    { split; [exact Hn|]. apply Forall_forall. intros x Hx.
      simpl in Hx. apply rango_in in Hx. lia. }
    destruct (mientras_esquina n m n _ H0) as [-> Hfin].
    destruct (mientras n m (estado_inicial n)) as [[st|e]|]; try reflexivity.
    simpl. unfold cerrar. destruct (Hfin st eq_refl) as [Ha _].
    now rewrite (entrada_esquina n m _ 0 Ha Hn).
Qed.

Lemma solo_la_esquina_ejemplo :
  busqueda_exhaustiva 2 [] [[0; 5; 1]; [5; 0; 1]; [1; 1; 0]]%float
  = busqueda_exhaustiva 2 []
      (esquina 2 [[0; 5; 1]; [5; 0; 1]; [1; 1; 0]]%float)
  /\ vecino_mas_cercano 2 [] [[0; 5; 1]; [5; 0; 1]; [1; 1; 0]]%float
     = vecino_mas_cercano 2 []
         (esquina 2 [[0; 5; 1]; [5; 0; 1]; [1; 1; 0]]%float).
Proof.
  apply (solo_la_esquina 2 [] [[0; 5; 1]; [5; 0; 1]; [1; 1; 0]]%float). lia.
Defined.

(** * More on the two solvers *)

(** X10. The tie-break of the nearest-neighbour loop.  In a turn, the
    chosen city splits the scan of [no_visitadas] in two: every city met
    before it is strictly farther from the current city, and every city
    met after it is not nearer.  So the chosen city is at the smallest
    distance, and among the cities at that distance it is the first in
    the iteration order of the set. *)
Theorem vecino_mas_cercano_desempate n m st :
  1 <= n -> cuadrada n m -> no_negativa m -> finita m ->
  alcanzable n m st -> no_visitadas st <> [] ->
  exists c d antes despues st',
    no_visitadas st = antes ++ c :: despues
    /\ entrada m (actual st) c = Ok d
    /\ paso m st = Ok st' /\ actual st' = c
    /\ (forall v, In v antes ->
          exists dv, entrada m (actual st) v = Ok dv
                     /\ (d <? dv)%float = true)
    /\ (forall v, In v despues ->
          exists dv, entrada m (actual st) v = Ok dv
                     /\ (d <=? dv)%float = true).
Proof.
  intros Hn Hm Hneg Hfin Halc Hne.
  pose proof (alcanzable_invariante n m st Hn Hm Hneg Hfin Halc) as Hinv.
  destruct (invariante_rango n m st Hn Hinv) as (Ha & Hnv & _).
  destruct (paso_spec n m st Hm Hneg Hfin Ha Hnv Hne)
    as (c & d & antes & despues & Env & Ed & Hmin & Hantes & E).
  exists c, d, antes, despues. eexists.
  split; [exact Env|]. split; [exact Ed|]. split; [exact E|].
  split; [reflexivity|]. split; [exact Hantes|].
  intros v Hv. apply Hmin. rewrite Env.
  apply in_or_app. right. now right.
Qed.

(** Three cities, the second nearer to the first than the third is. *)
Definition matriz_triangulo : matriz :=
  [[0; 5; 3]; [5; 0; 4]; [3; 4; 0]]%float.

Lemma vecino_mas_cercano_desempate_triangulo :
  exists c d antes despues st',
    no_visitadas (estado_inicial 3) = antes ++ c :: despues
    /\ entrada matriz_triangulo (actual (estado_inicial 3)) c = Ok d
    /\ paso matriz_triangulo (estado_inicial 3) = Ok st' /\ actual st' = c
    /\ (forall v, In v antes ->
          exists dv, entrada matriz_triangulo (actual (estado_inicial 3)) v
                     = Ok dv
                     /\ (d <? dv)%float = true)
    /\ (forall v, In v despues ->
          exists dv, entrada matriz_triangulo (actual (estado_inicial 3)) v
                     = Ok dv
                     /\ (d <=? dv)%float = true).
Proof.
  apply (vecino_mas_cercano_desempate 3 matriz_triangulo (estado_inicial 3));
    try valida; [apply alc_inicio|discriminate].
Defined.

(** X11. On an [n]-by-[n] matrix ([n >= 1]) of finite distances that pass
    [0 <= d] both solvers return, and the two returned costs pass
    [0 <= c]: they are neither negative nor [nan]. *)
Theorem costos_no_negativos n nombres m :
  1 <= n -> cuadrada n m -> no_negativa m -> finita m ->
  exists r1 c1 r2 c2,
    busqueda_exhaustiva n nombres m = Ok (r1, c1)
    /\ vecino_mas_cercano n nombres m = Some (Ok (r2, c2))
    /\ (0 <=? c1)%float = true
    /\ (0 <=? c2)%float = true.
Proof.
  intros Hn Hm Hneg Hfin.
  destruct (busqueda_resumen n nombres m Hn Hm Hneg)
    as (o & c & E & Hc & _).
  destruct (vecino_resumen n nombres m Hn Hm Hneg Hfin)
    as (p & c2 & E2 & Hp & Ec2).
  exists o, c, (circuito p), c2. repeat split; auto.
  destruct (costo_circuito_ok n m p Hn Hm Hp) as [Ec Hnn].
  rewrite Ec2 in Ec. injection Ec as ->. now apply Hnn.
Qed.

Lemma costos_no_negativos_plaza :
  exists r1 c1 r2 c2,
    busqueda_exhaustiva 4 [] matriz_plaza = Ok (r1, c1)
    /\ vecino_mas_cercano 4 [] matriz_plaza = Some (Ok (r2, c2))
    /\ (0 <=? c1)%float = true
    /\ (0 <=? c2)%float = true.
Proof.
  apply (costos_no_negativos 4 [] matriz_plaza); valida.
Defined.

(** X12. With two cities both solvers return the route [[0, 1, 0]] and the
    same cost [(0 + matriz[0][1]) + matriz[1][0]], provided the distance
    to city 1 and that cost are below [float('inf')]. *)
Theorem dos_ciudades_coinciden nombres m a b :
  entrada m 0 1 = Ok a -> entrada m 1 0 = Ok b ->
  (a <? infinity)%float = true ->
  (0 + a + b <? infinity)%float = true ->
  busqueda_exhaustiva 2 nombres m = Ok (Some [0; 1; 0], (0 + a + b)%float)
  /\ vecino_mas_cercano 2 nombres m
     = Some (Ok ([0; 1; 0], (0 + a + b)%float)).
Proof.
  intros Ea Eb Ha Hc. split.
  - unfold busqueda_exhaustiva. simpl. unfold probar, costo_ruta. simpl.
    rewrite Ea. simpl. rewrite Eb. simpl. now rewrite Hc.
  - unfold vecino_mas_cercano. simpl. unfold paso. simpl.
    unfold mirar. rewrite Ea. simpl. rewrite Ha. simpl.
    unfold cerrar. simpl. rewrite Eb. reflexivity.
Qed.

Lemma dos_ciudades_coinciden_ejemplo :
  busqueda_exhaustiva 2 [] [[0; 5]; [5; 0]]%float
  = Ok (Some [0; 1; 0], (0 + 5 + 5)%float)
  /\ vecino_mas_cercano 2 [] [[0; 5]; [5; 0]]%float
     = Some (Ok ([0; 1; 0], (0 + 5 + 5)%float)).
Proof.
  apply (dos_ciudades_coinciden [] [[0; 5]; [5; 0]]%float 5%float 5%float);
    reflexivity.
Defined.

(** ** How many routes are tried *)







(** * The deviation is not below zero *)

Local Open Scope Z_scope.

Lemma digits2_pos_cotas m :
  2 ^ (Z.pos (digits2_pos m) - 1) <= Z.pos m < 2 ^ Z.pos (digits2_pos m).
Proof.
  induction m as [m IH|m IH|]; simpl digits2_pos.
  - rewrite Pos2Z.inj_succ.
    replace (Z.succ (Z.pos (digits2_pos m)) - 1) with (Z.pos (digits2_pos m)) by lia.
    rewrite Z.pow_succ_r by lia.
    assert (E : 2 ^ Z.pos (digits2_pos m) = 2 * 2 ^ (Z.pos (digits2_pos m) - 1)).
    { rewrite <- Z.pow_succ_r by lia. f_equal. lia. }
    lia.
  - rewrite Pos2Z.inj_succ.
    replace (Z.succ (Z.pos (digits2_pos m)) - 1) with (Z.pos (digits2_pos m)) by lia.
    rewrite Z.pow_succ_r by lia.
    assert (E : 2 ^ Z.pos (digits2_pos m) = 2 * 2 ^ (Z.pos (digits2_pos m) - 1)).
    { rewrite <- Z.pow_succ_r by lia. f_equal. lia. }
    lia.
  - simpl. lia.
Qed.

Lemma iter_xO_valor m d : Z.pos (Pos.iter xO m d) = Z.pos m * 2 ^ Z.pos d.
Proof.
  induction d as [|d IH] using Pos.peano_ind.
  - simpl. lia.
  - rewrite Pos.iter_succ, Pos2Z.inj_succ, Z.pow_succ_r by lia.
    rewrite Pos2Z.inj_xO, IH. lia.
Qed.

Lemma shl_align_valor mx ex ez :
  ez <= ex -> Z.pos (fst (shl_align mx ex ez)) = Z.pos mx * 2 ^ (ex - ez).
Proof.
  intros H. unfold shl_align.
  destruct (ez - ex) as [|d|d] eqn:E; simpl fst.
  - replace (ex - ez) with 0 by lia. simpl. lia.
  - lia.
  - replace (ex - ez) with (Z.pos d) by lia. apply iter_xO_valor.
Qed.

(** The mantissa of a binary64 number has at most 53 bits, and exactly 53
    above the smallest exponent. *)
Lemma canonico_cotas m e :
  canonical_mantissa prec emax m e = true ->
  Z.pos (digits2_pos m) <= 53
  /\ (-1074 < e -> Z.pos (digits2_pos m) = 53)
  /\ -1074 <= e.
Proof.
  unfold canonical_mantissa, fexp, SpecFloat.emin, prec, emax.
  rewrite Z.eqb_eq. lia.
Qed.

Lemma binary_normalize_no_neg p e z ex :
  0 <= z -> sf_no_neg (binary_normalize p e z ex false).
Proof.
  destruct z as [|q|q]; intros H; simpl; [exact I| |lia].
  apply sf_signo_no_neg, binary_round_signo.
Qed.

(** Taking a smaller positive number from a larger one leaves a number
    that is not below zero. *)
Lemma SFsub_no_neg ma ea mb eb :
  valid_binary (S754_finite false ma ea) = true ->
  valid_binary (S754_finite false mb eb) = true ->
  SFleb (S754_finite false mb eb) (S754_finite false ma ea) = true ->
  sf_no_neg (SFsub prec emax (S754_finite false ma ea) (S754_finite false mb eb)).
Proof.
  unfold SpecFloat.valid_binary, bounded. intros Ha Hb Hle.
  apply andb_prop in Ha as [Ha _]. apply andb_prop in Hb as [Hb _].
  apply canonico_cotas in Ha as (Ha1 & Ha2 & Ha3).
  apply canonico_cotas in Hb as (Hb1 & Hb2 & Hb3).
  pose proof (digits2_pos_cotas ma) as Hma.
  pose proof (digits2_pos_cotas mb) as Hmb.
  simpl SFsub. apply binary_normalize_no_neg.
  match goal with
  | |- (0 <= Z.pos_sub ?a ?b)%Z => change (0 <= Z.pos a - Z.pos b)%Z
  end.
  rewrite !shl_align_valor by lia.
  unfold SFleb in Hle. simpl in Hle.
  destruct (Z.compare_spec eb ea) as [E|E|E].
  - subst eb. rewrite Z.min_id, Z.sub_diag. simpl (2 ^ 0).
    change (Pos.compare_cont Eq mb ma) with (Pos.compare mb ma) in Hle.
    destruct (Pos.compare_spec mb ma) as [E|E|E]; try discriminate; lia.
  - rewrite Z.min_r by lia. rewrite Z.sub_diag. simpl (2 ^ 0).
    rewrite (Ha2 ltac:(lia)) in Hma.
    assert (H53 : 2 ^ Z.pos (digits2_pos mb) <= 2 ^ 53)
      by (apply Z.pow_le_mono_r; lia).
    assert (H2 : 2 ^ 1 <= 2 ^ (ea - eb)) by (apply Z.pow_le_mono_r; lia).
    change (2 ^ 1) with 2 in H2. change (2 ^ (53 - 1)) with 4503599627370496 in Hma.
    change (2 ^ 53) with 9007199254740992 in *. nia.
  - discriminate.
Qed.

Lemma SFdiv_no_neg a mb eb :
  sf_no_neg a -> sf_no_neg (SFdiv prec emax a (S754_finite false mb eb)).
Proof.
  destruct a as [s|s| |s ma ea]; try destruct s; simpl; try easy. intros _.
  destruct (SFdiv_core_binary prec emax (Z.pos ma) ea (Z.pos mb) eb)
    as [[mz ez] lz] eqn:E.
  apply sf_signo_no_neg, binary_round_aux_signo.
  unfold SFdiv_core_binary in E.
  set (m' := match _ - _ - _ with Z.pos _ => _ | Z0 => _ | Z.neg _ => _ end) in E.
  assert (Hm : 0 <= m').
  { subst m'. destruct (_ - _ - _); try lia. apply Z.shiftl_nonneg. lia. }
  pose proof (Z_div_mod m' (Z.pos mb) ltac:(lia)) as Hd.
  destruct (Z.div_eucl m' (Z.pos mb)) as [q r].
  injection E as <- _ _. nia.
Qed.

Lemma SFmul_no_neg a mb eb :
  sf_no_neg a -> sf_no_neg (SFmul prec emax a (S754_finite false mb eb)).
Proof.
  destruct a as [s|s| |s ma ea]; try destruct s; simpl; try easy. intros _.
  apply sf_signo_no_neg, binary_round_aux_signo. lia.
Qed.

Local Close Scope Z_scope.

(** A number above zero and below [float('inf')] is a positive finite
    one. *)
Lemma positivo_finito x :
  (0 <? x)%float = true -> (x <? infinity)%float = true ->
  exists mx ex, Prim2SF x = S754_finite false mx ex.
Proof.
  rewrite !ltb_spec. change (Prim2SF 0%float) with (S754_zero false).
  change (Prim2SF infinity) with (S754_infinity false).
  destruct (Prim2SF x) as [s|s| |s mx ex]; try destruct s; try discriminate.
  eauto.
Qed.

Lemma gap_no_neg_aux d_nn d_opt :
  (0 <? d_opt)%float = true -> (d_opt <? infinity)%float = true ->
  (d_opt <=? d_nn)%float = true ->
  gap d_nn d_opt = Ok ((d_nn - d_opt) / d_opt * 100)%float
  /\ no_negativo ((d_nn - d_opt) / d_opt * 100)%float.
Proof.
  intros Hpos Hfin Hle.
  destruct (positivo_finito d_opt Hpos Hfin) as (mb & eb & Eb).
  split.
  - unfold gap. rewrite eqb_spec, Eb.
    change (Prim2SF 0%float) with (S754_zero false). reflexivity.
  - apply no_negativo_spec. rewrite mul_spec. unfold SF64mul.
    replace (Prim2SF 100%float)
      with (S754_finite false 7036874417766400 (-46)) by reflexivity.
    apply SFmul_no_neg. rewrite div_spec, Eb. unfold SF64div.
    apply SFdiv_no_neg. rewrite sub_spec, Eb. unfold SF64sub.
    pose proof (Prim2SF_valid d_nn) as Hva.
    pose proof (Prim2SF_valid d_opt) as Hvb. rewrite Eb in Hvb.
    rewrite leb_spec, Eb in Hle.
    destruct (Prim2SF d_nn) as [s|s| |s ma ea]; try destruct s;
      try discriminate; try exact I.
    now apply SFsub_no_neg.
Qed.

(** X14. When the optimum is above zero and finite and not above the cost of
    the heuristic, line 129 does not raise and the deviation it computes
    passes [0 <= gap]: it is neither negative nor [nan]. *)
Theorem gap_no_negativo d_nn d_opt :
  (0 <? d_opt)%float = true -> (d_opt <? infinity)%float = true ->
  (d_opt <=? d_nn)%float = true ->
  exists g, gap d_nn d_opt = Ok g /\ (0 <=? g)%float = true.
Proof.
  intros Hpos Hfin Hle.
  destruct (gap_no_neg_aux d_nn d_opt Hpos Hfin Hle) as [E H]. eauto.
Qed.

Lemma gap_no_negativo_ejemplo :
  exists g, gap 5 4 = Ok g /\ (0 <=? g)%float = true.
Proof. apply (gap_no_negativo 5 4); reflexivity. Defined.

(** X15. When the heuristic reaches the cost of the optimum, a finite non-zero
    cost, the deviation is zero. *)
Theorem gap_sin_desviacion d :
  is_finite d = true -> (d =? 0)%float = false ->
  exists g, gap d d = Ok g /\ (g =? 0)%float = true.
Proof.
  intros Hfin Hnz. unfold gap. rewrite Hnz, (sub_diag d Hfin).
  eexists. split; [reflexivity|].
  rewrite eqb_spec, mul_spec, div_spec.
  rewrite eqb_spec in Hnz. apply is_finite_sf in Hfin.
  change (Prim2SF 0%float) with (S754_zero false) in *.
  replace (Prim2SF 100%float)
    with (S754_finite false 7036874417766400 (-46)) by reflexivity.
  destruct (Prim2SF d) as [s|s| |s md ed]; try contradiction.
  - destruct s; discriminate.
  - destruct s; reflexivity.
Qed.

Lemma gap_sin_desviacion_ejemplo :
  exists g, gap 4 4 = Ok g /\ (g =? 0)%float = true.
Proof. apply (gap_sin_desviacion 4); reflexivity. Defined.

(** * The comparison on valid data *)

(** A distance is [nan] or passes [0 <= d]; one below [float('inf')] is
    not [nan].  So a matrix that was built and whose entries are below
    [float('inf')] has no entry below zero. *)
Lemma matriz_distancias_no_negativa pow coords m :
  matriz_distancias pow coords = Ok m -> finita m -> no_negativa m.
Proof.
  intros E Hfin.
  assert (H : entradas (fun d => sf_nan_o_no_neg (Prim2SF d)) m).
  { unfold entradas. unfold matriz_distancias in E.
    refine (mapear_todos (Forall _) _ coords m _ E).
    intros pi fila Hpi Efila.
    refine (mapear_todos _ _ coords fila _ Efila).
    intros pj d Hpj Ed.
    destruct (calcular_distancia_casos pow pi pj) as [F|[F|(d' & F & Hd)]];
      congruence. }
  unfold no_negativa, finita, entradas in *.
  rewrite Forall_forall in *. intros fila Hfila.
  specialize (H fila Hfila). specialize (Hfin fila Hfila).
  rewrite Forall_forall in *. intros d Hd.
  destruct (H d Hd) as [Hnan|Hnn]; [|now apply no_negativo_spec].
  specialize (Hfin d Hd). rewrite ltb_spec, Hnan in Hfin. discriminate.
Qed.

(** Lines 118-129 once the matrix and the two results are known. *)
Lemma comparar_pasos pow cs m r_opt d_opt r_nn d_nn :
  matriz_distancias pow (map snd cs) = Ok m ->
  busqueda_exhaustiva (length cs) (map fst cs) m = Ok (r_opt, d_opt) ->
  vecino_mas_cercano (length cs) (map fst cs) m = Some (Ok (r_nn, d_nn)) ->
  comparar pow cs
  = Some (g <- gap d_nn d_opt ;;
          Ok {| ruta_optima := r_opt; dist_optima := d_opt;
                ruta_nn := r_nn; dist_nn := d_nn; desviacion := g |}).
Proof.
  intros E1 E2 E3. unfold comparar. cbv zeta.
  rewrite length_map, E1, E2, E3. reflexivity.
Qed.

Lemma no_neg_no_cero x :
  no_negativo x -> (x =? 0)%float = false -> (0 <? x)%float = true.
Proof.
  rewrite no_negativo_spec, eqb_spec, ltb_spec.
  change (Prim2SF 0%float) with (S754_zero false).
  destruct (Prim2SF x) as [s|s| |s mx ex]; try destruct s; simpl; easy.
Qed.

Lemma no_neg_leb_cero x :
  no_negativo x -> (x <=? 0)%float = true -> (x =? 0)%float = true.
Proof.
  rewrite no_negativo_spec, eqb_spec, leb_spec.
  change (Prim2SF 0%float) with (S754_zero false).
  destruct (Prim2SF x) as [s|s| |s mx ex]; try destruct s; simpl; easy.
Qed.

Lemma leb_infinity_sf y :
  (infinity <=? y)%float = true -> Prim2SF y = S754_infinity false.
Proof.
  rewrite leb_spec. change (Prim2SF infinity) with (S754_infinity false).
  destruct (Prim2SF y) as [s|s| |s my ey]; try destruct s; simpl; easy.
Qed.

(** [inf - inf] is [nan], and so is what line 129 makes of it. *)
Lemma gap_nan d_nn d_opt :
  Prim2SF d_opt = S754_infinity false -> Prim2SF d_nn = S754_infinity false ->
  exists g, gap d_nn d_opt = Ok g /\ is_nan g = true.
Proof.
  intros Ho Hn. unfold gap.
  assert (E : (d_opt =? 0)%float = false).
  { rewrite eqb_spec, Ho. reflexivity. }
  rewrite E. eexists. split; [reflexivity|].
  unfold is_nan. rewrite eqb_spec, mul_spec, div_spec, sub_spec, Ho, Hn.
  reflexivity.
Qed.

(** X16. On a table of cities whose matrix is built and has every distance
    below [float('inf')], on any C library, the script reaches line 129
    with the results of both solvers, the optimum not above the cost of
    the heuristic.  It stops there with [ZeroDivisionError] when the
    optimum is zero.  Otherwise the deviation passes [0 <= gap] when the
    optimum is below [float('inf')], and is [nan] when every tour sums to
    [inf]. *)
Theorem comparar_informe pow cs m :
  1 <= length cs ->
  matriz_distancias pow (map snd cs) = Ok m -> finita m ->
  exists r_opt d_opt p d_nn,
    busqueda_exhaustiva (length cs) (map fst cs) m = Ok (r_opt, d_opt)
    /\ vecino_mas_cercano (length cs) (map fst cs) m
       = Some (Ok (circuito p, d_nn))
    /\ Permutation p (rango 1 (length cs))
    /\ (d_opt <=? d_nn)%float = true
    /\ (((d_opt =? 0)%float = true
         /\ comparar pow cs = Some (Lanza ZeroDivisionError))
        \/ ((d_opt =? 0)%float = false
            /\ exists g,
                 comparar pow cs
                 = Some (Ok {| ruta_optima := r_opt; dist_optima := d_opt;
                               ruta_nn := circuito p; dist_nn := d_nn;
                               desviacion := g |})
                 /\ (if (d_opt <? infinity)%float then (0 <=? g)%float
                     else is_nan g) = true)).
Proof.
  intros Hn E Hfin.
  pose proof (matriz_distancias_cuadrada _ _ _ E) as Hm.
  rewrite length_map in Hm.
  pose proof (matriz_distancias_no_negativa _ _ _ E Hfin) as Hneg.
  destruct (busqueda_resumen (length cs) (map fst cs) m Hn Hm Hneg)
    as (o & c & E1 & Hc & Hmin & _).
  destruct (vecino_resumen (length cs) (map fst cs) m Hn Hm Hneg Hfin)
    as (p & c2 & E2 & Hp & Ec2).
  assert (Hle : (c <=? c2)%float = true).
  { specialize (Hmin p Hp). unfold costo_circuito in Hmin.
    now rewrite Ec2 in Hmin. }
  exists o, c, p, c2.
  split; [exact E1|]. split; [exact E2|]. split; [exact Hp|].
  split; [exact Hle|].
  rewrite (comparar_pasos pow cs m o c (circuito p) c2 E E1 E2).
  destruct (c =? 0)%float eqn:Ez.
  - left. split; [reflexivity|]. now rewrite (gap_cero c2 c Ez).
  - right. split; [reflexivity|].
    destruct (c <? infinity)%float eqn:Ei.
    + destruct (gap_no_neg_aux c2 c (no_neg_no_cero c Hc Ez) Ei Hle)
        as [Eg Hg].
      eexists. rewrite Eg. split; [reflexivity|exact Hg].
    + assert (Ho : Prim2SF c = S754_infinity false).
      { apply (proj1 (tope_spec c)) in Ei. destruct Ei as [Ei|Ei]; [|exact Ei].
        apply no_negativo_spec in Hc. rewrite Ei in Hc. contradiction. }
      assert (Hi : c = infinity) by (apply Prim2SF_inj; exact Ho).
      rewrite Hi in Hle. apply leb_infinity_sf in Hle.
      destruct (gap_nan c2 c Ho Hle) as (g & Eg & Hg).
      exists g. rewrite Eg. split; [reflexivity|exact Hg].
Qed.

Local Open Scope string_scope.

(** The unit square with names. *)
Definition ciudades_plaza : list (String.string * punto) :=
  [ ("A", (0, 0)%float); ("B", (0, 1)%float);
    ("C", (1, 1)%float); ("D", (1, 0)%float) ].

Local Close Scope string_scope.

Lemma comparar_informe_plaza :
  exists r_opt d_opt p d_nn,
    busqueda_exhaustiva (length ciudades_plaza) (map fst ciudades_plaza)
      matriz_plaza = Ok (r_opt, d_opt)
    /\ vecino_mas_cercano (length ciudades_plaza) (map fst ciudades_plaza)
         matriz_plaza = Some (Ok (circuito p, d_nn))
    /\ Permutation p (rango 1 (length ciudades_plaza))
    /\ (d_opt <=? d_nn)%float = true
    /\ (((d_opt =? 0)%float = true
         /\ comparar pow_redondeada ciudades_plaza
            = Some (Lanza ZeroDivisionError))
        \/ ((d_opt =? 0)%float = false
            /\ exists g,
                 comparar pow_redondeada ciudades_plaza
                 = Some (Ok {| ruta_optima := r_opt; dist_optima := d_opt;
                               ruta_nn := circuito p; dist_nn := d_nn;
                               desviacion := g |})
                 /\ (if (d_opt <? infinity)%float then (0 <=? g)%float
                     else is_nan g) = true)).
Proof.
  apply (comparar_informe pow_redondeada ciudades_plaza matriz_plaza).
  - simpl. lia.
  - reflexivity.
  - repeat constructor.
Defined.

(** * Cities at one point *)

Lemma mapear_constante {A B} (f : A -> resultado B) l y :
  (forall x, In x l -> f x = Ok y) ->
  mapear f l = Ok (repeat y (length l)).
Proof.
  induction l as [|a l IH]; intros H; [reflexivity|].
  simpl. rewrite (H a (or_introl eq_refl)). cbn [ligar].
  rewrite IH by (intros x Hx; apply H; now right). reflexivity.
Qed.

Lemma entradas_impl (P Q : float -> Prop) m :
  (forall d, P d -> Q d) -> entradas P m -> entradas Q m.
Proof.
  intros H. unfold entradas. apply Forall_impl. intros fila.
  apply Forall_impl. exact H.
Qed.

(** Over a matrix of zeros every route in range costs [0.0]. *)
Lemma sumar_ceros n m :
  cuadrada n m -> entradas (fun d => d = 0%float) m ->
  forall r, Forall (fun i => i < n) r -> sumar_tramos m 0 r = Ok 0%float.
Proof.
  intros Hm Hz. induction r as [|a r IH]; intros Hr; [reflexivity|].
  destruct r as [|b r']; [reflexivity|].
  inversion Hr as [|? ? Ha Hr']; subst. inversion Hr' as [|? ? Hb _]; subst.
  destruct (entrada_ok n m a b Hm Ha Hb) as [d Ed].
  pose proof (entrada_entradas _ m a b d Hz Ed) as Hd. simpl in Hd. subst d.
  change (sumar_tramos m 0 (a :: b :: r'))
    with (d <- entrada m a b ;; sumar_tramos m (0 + d) (b :: r')).
  rewrite Ed. cbn [ligar]. change (0 + 0)%float with 0%float.
  apply IH. exact Hr'.
Qed.

(** X17. When every city is at the same point, of finite coordinates, every
    distance is zero, the optimum is zero, and the script stops at
    line 129 with [ZeroDivisionError], on any C library. *)
Theorem ciudades_en_un_punto pow cs p :
  1 <= length cs -> punto_finito p -> Forall (fun c => snd c = p) cs ->
  comparar pow cs = Some (Lanza ZeroDivisionError).
Proof.
  intros Hn Hp Hcs. rewrite Forall_forall in Hcs.
  assert (Hco : forall q, In q (map snd cs) -> q = p).
  { intros q Hq. apply in_map_iff in Hq as (c & <- & Hc). now apply Hcs. }
  set (k := length (map snd cs)).
  assert (E : matriz_distancias pow (map snd cs)
              = Ok (repeat (repeat 0%float k) k)).
  { unfold matriz_distancias. apply mapear_constante. intros pi Hpi.
    apply mapear_constante. intros pj Hpj.
    rewrite (Hco pi Hpi), (Hco pj Hpj). now apply calcular_distancia_diag. }
  set (m := repeat (repeat 0%float k) k) in *.
  pose proof (matriz_distancias_cuadrada _ _ _ E) as Hm.
  rewrite length_map in Hm.
  assert (Hz : entradas (fun d => d = 0%float) m).
  { unfold entradas, m. apply Forall_forall. intros fila Hf.
    apply repeat_spec in Hf. subst fila. apply Forall_forall.
    intros d Hd. now apply repeat_spec in Hd. }
  assert (Hneg : no_negativa m).
  { apply (entradas_impl _ _ m (fun d H => eq_ind_r no_negativo no_negativo_cero H) Hz). }
  assert (Hfin : finita m).
  { apply (entradas_impl (fun d => d = 0%float) _ m); [|exact Hz].
    intros d ->. reflexivity. }
  destruct (busqueda_resumen (length cs) (map fst cs) m Hn Hm Hneg)
    as (o & c & E1 & Hc & Hmin & _).
  destruct (vecino_resumen (length cs) (map fst cs) m Hn Hm Hneg Hfin)
    as (q & c2 & E2 & Hq & _).
  specialize (Hmin (rango 1 (length cs)) (Permutation_refl _)).
  unfold costo_circuito, costo_ruta in Hmin.
  rewrite (sumar_ceros (length cs) m Hm Hz) in Hmin
    by (apply circuito_en_rango; [exact Hn|apply Permutation_refl]).
  simpl valor in Hmin.
  rewrite (comparar_pasos pow cs m o c (circuito q) c2 E E1 E2).
  now rewrite (gap_cero c2 c (no_neg_leb_cero c Hc Hmin)).
Qed.

Local Open Scope string_scope.

Definition tres_en_un_punto : list (String.string * punto) :=
  [ ("A", (1.5, 2.5)%float); ("B", (1.5, 2.5)%float);
    ("C", (1.5, 2.5)%float) ].

Definition tres_nombres : list String.string := ["A"; "B"; "C"].

Local Close Scope string_scope.

Lemma ciudades_en_un_punto_ejemplo :
  comparar pow_redondeada tres_en_un_punto = Some (Lanza ZeroDivisionError).
Proof.
  apply (ciudades_en_un_punto pow_redondeada tres_en_un_punto
           (1.5, 2.5)%float).
  - simpl. lia.
  - split; reflexivity.
  - repeat constructor.
Defined.

(** * The names along a route *)

(** [[nombres[i] for i in ruta]] (lines 136 and 141). *)
Definition nombres_de_ruta (nombres : list String.string) (ruta : list nat)
  : resultado (list String.string) :=
  mapear (indice nombres) ruta.

Lemma mapear_indice {A} (l : list A) (d : A) r :
  Forall (fun i => i < length l) r ->
  mapear (indice l) r = Ok (map (fun i => nth i l d) r).
Proof.
  induction r as [|i r IH]; intros Hr; [reflexivity|].
  inversion Hr as [|? ? Hi Hr']; subst. simpl.
  unfold indice at 1.
  destruct (nth_error l i) as [x|] eqn:E.
  - cbn [ligar]. rewrite (IH Hr'). cbn [ligar].
    now rewrite (nth_error_nth l i d E).
  - apply nth_error_None in E. lia.
Qed.

Lemma map_nth_seq {A} (l : list A) (d : A) :
  map (fun i => nth i l d) (seq 0 (length l)) = l.
Proof.
  induction l as [|x l IH]; [reflexivity|].
  simpl length. simpl seq. simpl map. f_equal.
  rewrite <- seq_shift, map_map. exact IH.
Qed.

(** X18. Listing the names along a closed route through the cities of
    [nombres] does not raise: the list starts and ends with the first
    name and has every other name once in between. *)
Theorem nombres_de_ruta_circuito nombres p :
  1 <= length nombres -> Permutation p (rango 1 (length nombres)) ->
  exists x resto ys,
    nombres = x :: resto
    /\ nombres_de_ruta nombres (circuito p) = Ok ([x] ++ ys ++ [x])
    /\ Permutation ys resto.
Proof.
  intros Hn Hp. destruct nombres as [|x resto]; [simpl in Hn; lia|].
  exists x, resto, (map (fun i => nth i (x :: resto) x) p).
  split; [reflexivity|]. split.
  - unfold nombres_de_ruta.
    rewrite (mapear_indice (x :: resto) x (circuito p))
      by (apply circuito_en_rango; assumption).
    unfold circuito. rewrite !map_app. reflexivity.
  - rewrite (Permutation_map (fun i => nth i (x :: resto) x) Hp).
    unfold rango. simpl length. rewrite Nat.sub_succ, Nat.sub_0_r.
    rewrite <- seq_shift, map_map. simpl nth.
    rewrite map_nth_seq. apply Permutation_refl.
Qed.

Lemma nombres_de_ruta_circuito_ejemplo :
  exists x resto ys,
    tres_nombres = x :: resto
    /\ nombres_de_ruta tres_nombres (circuito [2; 1])
       = Ok ([x] ++ ys ++ [x])
    /\ Permutation ys resto.
Proof.
  apply (nombres_de_ruta_circuito tres_nombres [2; 1]).
  - simpl. lia.
  - apply perm_swap.
Defined.
